(** * A leveled logging facade over Go's [log] package: model and properties

    The development embeds [logger.go] of the [logging] package.  Every Go
    function becomes a program in a small effect monad [Prog]; the effects
    are exactly the things the Go code does to the outside world: operations
    on the package mutex [mu], loads and stores of the package variable
    [currLvl], calls into the [Formatter] interface and calls into the
    underlying [*log.Logger].  The same programs are given three readings:
    [run] goes through the text of a program with one goroutine and records
    every call; [run_proc] does the same but stops where a logger primitive
    exits the process or panics; [step] interleaves a pool of goroutines
    over the package state. *)

From stdpp Require Import base tactics option list gmap strings relations.
From Stdlib Require Import ZArith Ascii.

Local Open Scope Z_scope.

(** ** Levels and package constants *)

(** [type level int] with the [iota] constants of the const block. *)
Definition level : Type := Z.

Definition DEBUG : level := 0.
Definition INFO : level := 1.
Definition WARNING : level := 2.
Definition ERROR : level := 3.
Definition FATAL : level := 4.

(** [log.Ldate] and [log.Ltime] are the two lowest flag bits of package
    [log]; [flag = log.Ldate | log.Ltime]. *)
Definition log_Ldate : Z := Z.shiftl 1 0.
Definition log_Ltime : Z := Z.shiftl 1 1.
Definition flag : Z := Z.lor log_Ldate log_Ltime.

(** The package variable [prefix], a [map[level]string]. *)
Definition prefix : gmap level string :=
  {[ DEBUG := "DEBUG: "; INFO := "INFO: "; WARNING := "WARNING: ";
     ERROR := "ERROR: "; FATAL := "FATAL: " ]}.

(** Indexing a Go map, [prefix[l]]: the zero value when the key is absent. *)
Definition prefix_at (l : level) : string := default "" (prefix !! l).

(** ** Values, writers, formatters, loggers *)

(** The [interface{}] values passed as variadic arguments. *)
Inductive Value : Type :=
| VString (s : string)
| VInt (n : Z)
| VNil.

(** [io.Writer] values; a nil writer is [None] at the call site of [New]. *)
Inductive Writer : Type :=
| os_Stdout
| os_Stderr
| UserWriter (id : nat).

#[global] Instance Writer_eq_dec : EqDecision Writer.
Proof. solve_decision. Defined.

(** The [Formatter] interface: the three methods [logger.go] calls. *)
Record Formatter : Type := {
  GetPrefix : level → string;
  GetSuffix : level → string;
  Format : level → list Value → list Value
}.

(** Modelled from the spec: [DefaultFormatter], whose source file is not part
    of the sources at hand.  The specification says that its [GetPrefix] and
    [GetSuffix] return the empty string for every level and that its
    [Format] returns the arguments unchanged. *)
Definition DefaultFormatter : Formatter :=
  {| GetPrefix := λ _, ""; GetSuffix := λ _, ""; Format := λ _ v, v |}.

(** What [log.New(out, prefix, flag)] returns: a logger bound to one
    destination, one static line prefix and one flag set. *)
Record log_Logger : Type := {
  log_out : Writer;
  log_prefix : string;
  log_flag : Z
}.

Definition log_New (out : Writer) (pfx : string) (flg : Z) : log_Logger :=
  {| log_out := out; log_prefix := pfx; log_flag := flg |}.

(** The nine primitives of the underlying logger with their arguments. *)
Inductive Call : Type :=
| log_Print (v : list Value)
| log_Printf (format : string) (v : list Value)
| log_Println (v : list Value)
| log_Fatal (v : list Value)
| log_Fatalf (format : string) (v : list Value)
| log_Fatalln (v : list Value)
| log_Panic (v : list Value)
| log_Panicf (format : string) (v : list Value)
| log_Panicln (v : list Value).

(** [type Wrapper struct { lvl; formatter; logger }].  The field [logger]
    has the interface type [LoggerInterface]; the fields are unexported and
    the only place that fills them is [New], which puts the result of
    [log.New] there. *)
Record Wrapper : Type := {
  lvl : level;
  formatter : Formatter;
  logger : log_Logger
}.

(** [type Logger struct { DEBUG, INFO, WARNING, ERROR, FATAL }]; [New]
    fills each field with a [*Wrapper].  The field names live in their own
    name space, as in Go. *)
Module Logger.
Record t : Type := {
  DEBUG : Wrapper;
  INFO : Wrapper;
  WARNING : Wrapper;
  ERROR : Wrapper;
  FATAL : Wrapper
}.
End Logger.

(** ** Package state and observable events *)

(** A [sync.RWMutex]: held by a writer, or by some number of readers. *)
Record RWMutex : Type := {
  writer : bool;
  readers : nat
}.

(** What the outside world sees of a run, in the order it happens. *)
Inductive Event : Type :=
| EvGetPrefix (l : level)
| EvGetSuffix (l : level)
| EvFormat (l : level) (v : list Value)
| EvLog (lg : log_Logger) (c : Call).

(** The package-level variables [currLvl] and [mu], and the trace of calls
    that left the package. *)
Record State : Type := {
  currLvl : level;
  mu : RWMutex;
  trace : list Event
}.

(** Process start: [currLvl = INFO], a zero-valued mutex, nothing emitted. *)
Definition init : State :=
  {| currLvl := INFO; mu := {| writer := false; readers := 0 |}; trace := [] |}.

Definition unlocked (s : State) : Prop :=
  mu s = {| writer := false; readers := 0 |}.

(** ** The effect monad *)

Inductive Eff : Type → Type :=
| mu_Lock : Eff unit
| mu_Unlock : Eff unit
| mu_RLock : Eff unit
| mu_RUnlock : Eff unit
| load_currLvl : Eff level
| store_currLvl (l : level) : Eff unit
| call_GetPrefix (f : Formatter) (l : level) : Eff string
| call_GetSuffix (f : Formatter) (l : level) : Eff string
| call_Format (f : Formatter) (l : level) (v : list Value) : Eff (list Value)
| call_logger (lg : log_Logger) (c : Call) : Eff unit.

Inductive Prog (A : Type) : Type :=
| Ret (a : A)
| Vis {X : Type} (e : Eff X) (k : X → Prog A).

Arguments Ret {A} a.
Arguments Vis {A X} e k.

Fixpoint bind {A B : Type} (p : Prog A) (f : A → Prog B) : Prog B :=
  match p with
  | Ret a => f a
  | Vis e k => Vis e (λ x, bind (k x) f)
  end.

#[global] Instance Prog_ret : MRet Prog := @Ret.
#[global] Instance Prog_bind : MBind Prog := λ A B f p, bind p f.

Definition perform {X : Type} (e : Eff X) : Prog X := Vis e Ret.

(** [defer d] in front of a body that does not panic: [d] runs when the body
    is done. *)
Definition defer {A : Type} (d : Prog unit) (body : Prog A) : Prog A :=
  a ← body; d;; mret a.

Definition set_mu (m : RWMutex) (s : State) : State :=
  {| currLvl := currLvl s; mu := m; trace := trace s |}.

Definition emit (ev : Event) (s : State) : State :=
  {| currLvl := currLvl s; mu := mu s; trace := trace s ++ [ev] |}.

(** One effect against the package state.  [None] means the effect cannot
    take place in that state: a [Lock] or [RLock] that has to wait, or an
    [Unlock] / [RUnlock] of a mutex that is not held (a fatal error of the
    Go runtime).  A call on a logger is recorded in the trace; whether the
    primitive hands control back to its caller is not decided here but by
    [ending], and [run_proc] below stops where the primitive does. *)
Definition exec {X : Type} (e : Eff X) (s : State) : option (X * State) :=
  match e in Eff X return option (X * State) with
  | mu_Lock =>
      if writer (mu s) then None
      else match readers (mu s) with
           | O => Some ((), set_mu {| writer := true; readers := 0 |} s)
           | S _ => None
           end
  | mu_Unlock =>
      if writer (mu s)
      then Some ((), set_mu {| writer := false; readers := readers (mu s) |} s)
      else None
  | mu_RLock =>
      if writer (mu s) then None
      else Some ((), set_mu {| writer := false; readers := S (readers (mu s)) |} s)
  | mu_RUnlock =>
      match readers (mu s) with
      | O => None
      | S n => Some ((), set_mu {| writer := writer (mu s); readers := n |} s)
      end
  | load_currLvl => Some (currLvl s, s)
  | store_currLvl l =>
      Some ((), {| currLvl := l; mu := mu s; trace := trace s |})
  | call_GetPrefix f l => Some (GetPrefix f l, emit (EvGetPrefix l) s)
  | call_GetSuffix f l => Some (GetSuffix f l, emit (EvGetSuffix l) s)
  | call_Format f l v => Some (Format f l v, emit (EvFormat l v) s)
  | call_logger lg c => Some ((), emit (EvLog lg c) s)
  end.

(** Sequential reading of the text of a program: one goroutine goes through
    the effects in order, and each logger call is taken as made.  For what
    the goroutine gets to do when a logger primitive exits or panics, see
    [run_proc]. *)
Fixpoint run {A : Type} (p : Prog A) (s : State) : option (A * State) :=
  match p with
  | Ret a => Some (a, s)
  | Vis e k =>
      match exec e s with
      | Some (x, s') => run (k x) s'
      | None => None
      end
  end.

(** ** The package functions *)

(** [func SetLevel(lvl level)] *)
Definition SetLevel (l : level) : Prog unit :=
  perform mu_Lock;;
  defer (perform mu_Unlock)
    (perform (store_currLvl l)).

(** [func New(out, errOut io.Writer, f Formatter) Logger] *)
Definition New (out errOut : option Writer) (f : option Formatter)
  : Prog Logger.t :=
  let out := match out with None => os_Stdout | Some o => o end in
  let errOut := match errOut with None => os_Stderr | Some e => e end in
  let f := match f with None => DefaultFormatter | Some f => f end in
  p ← perform (call_GetPrefix f DEBUG);
  let debug := {| lvl := DEBUG; formatter := f;
                  logger := log_New out (p +:+ prefix_at DEBUG) flag |} in
  p ← perform (call_GetPrefix f INFO);
  let info := {| lvl := INFO; formatter := f;
                 logger := log_New out (p +:+ prefix_at INFO) flag |} in
  p ← perform (call_GetPrefix f WARNING);
  let warning := {| lvl := INFO; formatter := f;
                    logger := log_New out (p +:+ prefix_at WARNING) flag |} in
  p ← perform (call_GetPrefix f ERROR);
  let errLogger := {| lvl := INFO; formatter := f;
                      logger := log_New errOut (p +:+ prefix_at ERROR) flag |} in
  p ← perform (call_GetPrefix f FATAL);
  let fatal := {| lvl := INFO; formatter := f;
                  logger := log_New errOut (p +:+ prefix_at FATAL) flag |} in
  mret {| Logger.DEBUG := debug;
          Logger.INFO := info;
          Logger.WARNING := warning;
          Logger.ERROR := errLogger;
          Logger.FATAL := fatal |}.

(** [func (w *Wrapper) Print(v ...interface{})] *)
Definition Print (w : Wrapper) (v : list Value) : Prog unit :=
  perform mu_RLock;;
  perform mu_RUnlock;;
  cur ← perform load_currLvl;
  if lvl w >=? cur then
    v ← perform (call_Format (formatter w) (lvl w) v);
    sfx ← perform (call_GetSuffix (formatter w) (lvl w));
    let v := v ++ [VString sfx] in
    perform (call_logger (logger w) (log_Print v))
  else mret ().

(** [func (w *Wrapper) Printf(format string, v ...interface{})] *)
Definition Printf (w : Wrapper) (format : string) (v : list Value)
  : Prog unit :=
  perform mu_RLock;;
  perform mu_RUnlock;;
  cur ← perform load_currLvl;
  if lvl w >=? cur then
    suffix ← perform (call_GetSuffix (formatter w) (lvl w));
    v ← perform (call_Format (formatter w) (lvl w) v);
    perform (call_logger (logger w) (log_Printf ("%s" +:+ format +:+ suffix) v))
  else mret ().

(** [func (w *Wrapper) Println(v ...interface{})] *)
Definition Println (w : Wrapper) (v : list Value) : Prog unit :=
  perform mu_RLock;;
  perform mu_RUnlock;;
  cur ← perform load_currLvl;
  if lvl w >=? cur then
    v ← perform (call_Format (formatter w) (lvl w) v);
    sfx ← perform (call_GetSuffix (formatter w) (lvl w));
    let v := v ++ [VString sfx] in
    perform (call_logger (logger w) (log_Println v))
  else mret ().

(** [func (w *Wrapper) Fatal(v ...interface{})] *)
Definition Fatal (w : Wrapper) (v : list Value) : Prog unit :=
  perform mu_RLock;;
  perform mu_RUnlock;;
  cur ← perform load_currLvl;
  if lvl w >=? cur then
    v ← perform (call_Format (formatter w) (lvl w) v);
    sfx ← perform (call_GetSuffix (formatter w) (lvl w));
    let v := v ++ [VString sfx] in
    perform (call_logger (logger w) (log_Fatal v))
  else mret ().

(** [func (w *Wrapper) Fatalf(format string, v ...interface{})] *)
Definition Fatalf (w : Wrapper) (format : string) (v : list Value)
  : Prog unit :=
  perform mu_RLock;;
  perform mu_RUnlock;;
  cur ← perform load_currLvl;
  if lvl w >=? cur then
    suffix ← perform (call_GetSuffix (formatter w) (lvl w));
    v ← perform (call_Format (formatter w) (lvl w) v);
    perform (call_logger (logger w) (log_Fatalf ("%s" +:+ format +:+ suffix) v))
  else mret ().

(** [func (w *Wrapper) Fatalln(v ...interface{})] *)
Definition Fatalln (w : Wrapper) (v : list Value) : Prog unit :=
  perform mu_RLock;;
  perform mu_RUnlock;;
  cur ← perform load_currLvl;
  if lvl w >=? cur then
    v ← perform (call_Format (formatter w) (lvl w) v);
    sfx ← perform (call_GetSuffix (formatter w) (lvl w));
    let v := v ++ [VString sfx] in
    perform (call_logger (logger w) (log_Fatalln v))
  else mret ().

(** [func (w *Wrapper) Panic(v ...interface{})]; the last line of the Go
    body is [w.logger.Fatal(v...)]. *)
Definition Panic (w : Wrapper) (v : list Value) : Prog unit :=
  perform mu_RLock;;
  perform mu_RUnlock;;
  cur ← perform load_currLvl;
  if lvl w >=? cur then
    v ← perform (call_Format (formatter w) (lvl w) v);
    sfx ← perform (call_GetSuffix (formatter w) (lvl w));
    let v := v ++ [VString sfx] in
    perform (call_logger (logger w) (log_Fatal v))
  else mret ().

(** [func (w *Wrapper) Panicf(format string, v ...interface{})] *)
Definition Panicf (w : Wrapper) (format : string) (v : list Value)
  : Prog unit :=
  perform mu_RLock;;
  perform mu_RUnlock;;
  cur ← perform load_currLvl;
  if lvl w >=? cur then
    suffix ← perform (call_GetSuffix (formatter w) (lvl w));
    v ← perform (call_Format (formatter w) (lvl w) v);
    perform (call_logger (logger w) (log_Panicf ("%s" +:+ format +:+ suffix) v))
  else mret ().

(** [func (w *Wrapper) Panicln(v ...interface{})] *)
Definition Panicln (w : Wrapper) (v : list Value) : Prog unit :=
  perform mu_RLock;;
  perform mu_RUnlock;;
  cur ← perform load_currLvl;
  if lvl w >=? cur then
    v ← perform (call_Format (formatter w) (lvl w) v);
    sfx ← perform (call_GetSuffix (formatter w) (lvl w));
    let v := v ++ [VString sfx] in
    perform (call_logger (logger w) (log_Panicln v))
  else mret ().

(** A call of one of the nine methods of a [Wrapper], as data, so that
    statements can range over "every operation". *)
Inductive Method : Type :=
| MPrint (v : list Value)
| MPrintf (format : string) (v : list Value)
| MPrintln (v : list Value)
| MFatal (v : list Value)
| MFatalf (format : string) (v : list Value)
| MFatalln (v : list Value)
| MPanic (v : list Value)
| MPanicf (format : string) (v : list Value)
| MPanicln (v : list Value).

Definition invoke (w : Wrapper) (m : Method) : Prog unit :=
  match m with
  | MPrint v => Print w v
  | MPrintf format v => Printf w format v
  | MPrintln v => Println w v
  | MFatal v => Fatal w v
  | MFatalf format v => Fatalf w format v
  | MFatalln v => Fatalln w v
  | MPanic v => Panic w v
  | MPanicf format v => Panicf w format v
  | MPanicln v => Panicln w v
  end.


(** ** Reading runs *)

(** The state [s] after the events [evs] have been added to its trace. *)
Definition extend (s : State) (evs : list Event) : State :=
  {| currLvl := currLvl s; mu := mu s; trace := trace s ++ evs |}.

(** The events that a run from [s] to [s'] added. *)
Definition emitted (s s' : State) : list Event :=
  drop (length (trace s)) (trace s').

(** The calls that reached an underlying logger, with the logger. *)
Definition log_calls (evs : list Event) : list (log_Logger * Call) :=
  omap (λ ev, match ev with EvLog lg c => Some (lg, c) | _ => None end) evs.

(** The calls that reached the destination stream [d]. *)
Definition written_to (d : Writer) (evs : list Event) : list Call :=
  omap (λ ev, match ev with
              | EvLog lg c => if decide (log_out lg = d) then Some c else None
              | _ => None
              end) evs.

Definition call_args (c : Call) : list Value :=
  match c with
  | log_Print v | log_Println v | log_Fatal v | log_Fatalln v
  | log_Panic v | log_Panicln v => v
  | log_Printf _ v | log_Fatalf _ v | log_Panicf _ v => v
  end.

Definition call_format (c : Call) : option string :=
  match c with
  | log_Printf f _ | log_Fatalf f _ | log_Panicf f _ => Some f
  | _ => None
  end.

Definition method_args (m : Method) : list Value :=
  match m with
  | MPrint v | MPrintln v | MFatal v | MFatalln v | MPanic v | MPanicln v => v
  | MPrintf _ v | MFatalf _ v | MPanicf _ v => v
  end.

Definition method_format (m : Method) : option string :=
  match m with
  | MPrintf f _ | MFatalf f _ | MPanicf f _ => Some f
  | _ => None
  end.

(** The primitive of the underlying logger that a method hands its
    decorated payload to, read off the last line of each method body. *)
Definition forwarded (m : Method) (format : string) (v : list Value) : Call :=
  match m with
  | MPrint _ => log_Print v
  | MPrintf _ _ => log_Printf format v
  | MPrintln _ => log_Println v
  | MFatal _ => log_Fatal v
  | MFatalf _ _ => log_Fatalf format v
  | MFatalln _ => log_Fatalln v
  | MPanic _ => log_Fatal v
  | MPanicf _ _ => log_Panicf format v
  | MPanicln _ => log_Panicln v
  end.

(** The Go name of a method of [Wrapper] and of a primitive of the
    underlying logger. *)
Definition method_name (m : Method) : string :=
  match m with
  | MPrint _ => "Print" | MPrintf _ _ => "Printf" | MPrintln _ => "Println"
  | MFatal _ => "Fatal" | MFatalf _ _ => "Fatalf" | MFatalln _ => "Fatalln"
  | MPanic _ => "Panic" | MPanicf _ _ => "Panicf" | MPanicln _ => "Panicln"
  end.

Definition call_name (c : Call) : string :=
  match c with
  | log_Print _ => "Print" | log_Printf _ _ => "Printf" | log_Println _ => "Println"
  | log_Fatal _ => "Fatal" | log_Fatalf _ _ => "Fatalf" | log_Fatalln _ => "Fatalln"
  | log_Panic _ => "Panic" | log_Panicf _ _ => "Panicf" | log_Panicln _ => "Panicln"
  end.

(** A sequence of method calls made one after the other by one goroutine. *)
Fixpoint invoke_all (cs : list (Wrapper * Method)) : Prog unit :=
  match cs with
  | [] => mret ()
  | (w, m) :: cs => invoke w m;; invoke_all cs
  end.

(** ** Goroutines *)

(** Interleaving reading: a pool of goroutines over one package state.  A
    step picks a goroutine whose next effect can take place and performs
    it; a goroutine waiting for the mutex cannot be picked. *)
Record Conf : Type := {
  goroutines : list (Prog unit);
  shared : State
}.

Inductive step : Conf → Conf → Prop :=
| step_goroutine (i : nat) (X : Type) (e : Eff X) (k : X → Prog unit) (x : X)
    (gs : list (Prog unit)) (s s' : State) :
    gs !! i = Some (Vis e k) →
    exec e s = Some (x, s') →
    step {| goroutines := gs; shared := s |}
         {| goroutines := <[i := k x]> gs; shared := s' |}.

(** Accesses to the memory of [currLvl]. *)
Inductive Access : Type := Read | Write.

Definition access {X : Type} (e : Eff X) : option Access :=
  match e with
  | load_currLvl => Some Read
  | store_currLvl _ => Some Write
  | _ => None
  end.

Definition next_access {A : Type} (p : Prog A) : option Access :=
  match p with
  | Ret _ => None
  | Vis e _ => access e
  end.

(** A data race on [currLvl]: two different goroutines are both about to
    access it, one of them to write, with nothing that orders the two. *)
Definition data_race (c : Conf) : Prop :=
  ∃ (i j : nat) (p q : Prog unit),
    i ≠ j ∧ goroutines c !! i = Some p ∧ goroutines c !! j = Some q ∧
    next_access p = Some Write ∧ is_Some (next_access q).

(** What a goroutine has acquired of [mu] and not yet released. *)
Inductive Held : Type := HeldNone | HeldShared | HeldExclusive.

Definition held_after {X : Type} (e : Eff X) (h : Held) : Held :=
  match e with
  | mu_Lock => HeldExclusive
  | mu_RLock => HeldShared
  | mu_Unlock | mu_RUnlock => HeldNone
  | _ => h
  end.

(** The accesses a goroutine makes when it runs [p] alone from [s], each
    with what the goroutine holds at that moment. *)
Fixpoint accesses {A : Type} (p : Prog A) (h : Held) (s : State)
  : list (Access * Held) :=
  match p with
  | Ret _ => []
  | Vis e k =>
      match exec e s with
      | Some (x, s') =>
          match access e with
          | Some a => (a, h) :: accesses (k x) (held_after e h) s'
          | None => accesses (k x) (held_after e h) s'
          end
      | None => []
      end
  end.

(** The locking discipline for stores to [currLvl], as the code of
    [SetLevel] follows it: a goroutine takes a lock only when it holds
    none, gives back only what it holds, and stores to [currLvl] only while
    it holds [mu] exclusively.  Loads are not constrained. *)
Definition allowed {X : Type} (e : Eff X) (h : Held) : Prop :=
  match e with
  | mu_Lock | mu_RLock => h = HeldNone
  | mu_Unlock => h = HeldExclusive
  | mu_RUnlock => h = HeldShared
  | store_currLvl _ => h = HeldExclusive
  | _ => True
  end.

Fixpoint disciplined (h : Held) (p : Prog unit) : Prop :=
  match p with
  | Ret _ => True
  | Vis e k => allowed e h ∧ ∀ x, disciplined (held_after e h) (k x)
  end.

#[global] Instance Held_eq_dec : EqDecision Held.
Proof. solve_decision. Defined.

Fixpoint count_held (x : Held) (hs : list Held) : nat :=
  match hs with
  | [] => 0%nat
  | h :: hs => ((if decide (h = x) then 1 else 0) + count_held x hs)%nat
  end.

(** The mutex agrees with what the goroutines hold: [hs] lists, goroutine
    by goroutine, what each holds; at most one holds [mu] exclusively and
    then [mu] is write-locked; the readers counted by [mu] are the
    goroutines holding it shared. *)
Definition consistent (hs : list Held) (c : Conf) : Prop :=
  Forall2 disciplined hs (goroutines c) ∧
  count_held HeldExclusive hs
  = (if writer (mu (shared c)) then 1 else 0)%nat ∧
  count_held HeldShared hs = readers (mu (shared c)).

(** ** Callers *)

(** The five wrappers of an aggregate, in the order of the struct fields. *)
Definition fields (L : Logger.t) : list Wrapper :=
  [Logger.DEBUG L; Logger.INFO L; Logger.WARNING L; Logger.ERROR L;
   Logger.FATAL L].

(** The call a method makes on the logger of its wrapper once it is past
    the threshold check: the payload each method body builds, handed to the
    primitive the body names. *)
Definition decorated (w : Wrapper) (m : Method) : Call :=
  match method_format m with
  | None =>
      forwarded m ""
        (Format (formatter w) (lvl w) (method_args m)
         ++ [VString (GetSuffix (formatter w) (lvl w))])
  | Some format =>
      forwarded m ("%s" +:+ format +:+ GetSuffix (formatter w) (lvl w))
        (Format (formatter w) (lvl w) (method_args m))
  end.

(** A use of the public surface of the package by a caller. *)
Inductive PkgCall : Type :=
| CallSetLevel (l : level)
| CallNew (out errOut : option Writer) (f : option Formatter)
| CallMethod (w : Wrapper) (m : Method).

Definition pkg_call (c : PkgCall) : Prog unit :=
  match c with
  | CallSetLevel l => SetLevel l
  | CallNew out errOut f => New out errOut f;; mret ()
  | CallMethod w m => invoke w m
  end.

(** What one goroutine does: package calls one after the other. *)
Fixpoint pkg_calls (cs : list PkgCall) : Prog unit :=
  match cs with
  | [] => mret ()
  | c :: cs => pkg_call c;; pkg_calls cs
  end.

(** The argument of the last [SetLevel] in a sequence of package calls, or
    [cur] when there is none. *)
Fixpoint last_SetLevel (cs : list PkgCall) (cur : level) : level :=
  match cs with
  | [] => cur
  | CallSetLevel l :: cs => last_SetLevel cs l
  | _ :: cs => last_SetLevel cs cur
  end.

(** The calls of [coloured_formatter_test.go], in its order: [Print] and
    [Printf] on the [INFO], [WARNING], [ERROR] and [FATAL] fields. *)
Definition test_calls (L : Logger.t) : list (Wrapper * Method) :=
  [(Logger.INFO L, MPrint [VString "Test logger.Print"]);
   (Logger.INFO L, MPrintf "Test %s.%s" [VString "logger"; VString "Printf"]);
   (Logger.WARNING L, MPrint [VString "Test logger.Print"]);
   (Logger.WARNING L, MPrintf "Test %s.%s" [VString "logger"; VString "Printf"]);
   (Logger.ERROR L, MPrint [VString "Test logger.Print"]);
   (Logger.ERROR L, MPrintf "Test %s.%s" [VString "logger"; VString "Printf"]);
   (Logger.FATAL L, MPrint [VString "Test logger.Print"]);
   (Logger.FATAL L, MPrintf "Test %s.%s" [VString "logger"; VString "Printf"])].

(** ** Progress of goroutines *)

(** A goroutine that follows [balanced] ends holding nothing. *)
Fixpoint balanced (h : Held) (p : Prog unit) : Prop :=
  match p with
  | Ret _ => h = HeldNone
  | Vis e k => ∀ x, balanced (held_after e h) (k x)
  end.

(** The effect can take place in [s]: the cases in which [exec] answers. *)
Definition enabled {X : Type} (e : Eff X) (s : State) : Prop :=
  match e with
  | mu_Lock => writer (mu s) = false ∧ readers (mu s) = 0%nat
  | mu_Unlock => writer (mu s) = true
  | mu_RLock => writer (mu s) = false
  | mu_RUnlock => readers (mu s) ≠ 0%nat
  | _ => True
  end.

Definition finished (c : Conf) : Prop :=
  Forall (λ p, ∃ a, p = Ret a) (goroutines c).

(** ** Calls that do not return *)

(** How a primitive of the underlying logger ends. *)
Inductive Ending : Type := Returns | Exits | Panics.

(** Modelled from the spec: package [log], which is not part of the sources
    at hand.  The specification (sections 4.3, 6 and 7) says that the
    [Fatal] family writes and then terminates the process, that the [Panic]
    family writes and then aborts the calling goroutine, and that both must
    be treated as non-returning; the [Print] family writes and returns. *)
Definition ending (c : Call) : Ending :=
  match c with
  | log_Print _ | log_Printf _ _ | log_Println _ => Returns
  | log_Fatal _ | log_Fatalf _ _ | log_Fatalln _ => Exits
  | log_Panic _ | log_Panicf _ _ | log_Panicln _ => Panics
  end.

(** How control leaves an effect. *)
Definition effect_ending {X : Type} (e : Eff X) : Ending :=
  match e with
  | call_logger _ c => ending c
  | _ => Returns
  end.

(** How a method ends when it passes the threshold check: the ending of the
    primitive its body calls last. *)
Definition method_ending (m : Method) : Ending := ending (forwarded m "" []).

(** What becomes of a goroutine that runs a program: it gets to the end of
    it, or the process exits under it, or it panics out of the package, or
    it cannot go on (see [exec]). *)
Inductive Outcome (A : Type) : Type :=
| Returned (a : A) (s : State)
| Exited (s : State)
| Panicked (s : State)
| Stuck.

Arguments Returned {A} a s.
Arguments Exited {A} s.
Arguments Panicked {A} s.
Arguments Stuck {A}.

(** Sequential reading of what happens: as [run], except that a logger
    primitive that does not return ends the run where it is called.  None
    of the package functions has a deferred call pending at a logger call,
    so nothing of the package runs after it. *)
Fixpoint run_proc {A : Type} (p : Prog A) (s : State) : Outcome A :=
  match p with
  | Ret a => Returned a s
  | Vis e k =>
      match exec e s with
      | Some (x, s') =>
          match effect_ending e with
          | Returns => run_proc (k x) s'
          | Exits => Exited s'
          | Panics => Panicked s'
          end
      | None => Stuck
      end
  end.

(** The outcome of a goroutine whose last effect ended as [e] in state [s]. *)
Definition finish (e : Ending) (s : State) : Outcome unit :=
  match e with
  | Returns => Returned () s
  | Exits => Exited s
  | Panics => Panicked s
  end.

(** The calls of a sequence that are made: all of them up to and including
    the first that does not return. *)
Fixpoint made (cs : list (Wrapper * Method)) : list (Wrapper * Method) :=
  match cs with
  | [] => []
  | wm :: cs =>
      wm :: match method_ending wm.2 with
            | Returns => made cs
            | _ => []
            end
  end.

(** How a sequence of calls that all pass the threshold check ends: as the
    first of them that does not return, or by returning. *)
Fixpoint ending_of (cs : list (Wrapper * Method)) : Ending :=
  match cs with
  | [] => Returns
  | wm :: cs =>
      match method_ending wm.2 with
      | Returns => ending_of cs
      | e => e
      end
  end.

(** A package call that returns whatever the threshold: [SetLevel], [New],
    and the methods that forward to [Print], [Printf] or [Println]. *)
Definition returning_call (c : PkgCall) : Prop :=
  match c with
  | CallMethod _ m => method_ending m = Returns
  | _ => True
  end.

(** ** Basic facts about runs *)

Lemma emitted_extend (s : State) (evs : list Event) :
  emitted s (extend s evs) = evs.
Proof. unfold emitted, extend; simpl. by rewrite drop_app_length. Qed.

Lemma emitted_same (s : State) : emitted s s = [].
Proof. unfold emitted. by rewrite drop_all. Qed.

Lemma run_bind {A B : Type} (p : Prog A) (f : A → Prog B) (s : State) :
  run (p ≫= f) s =
  match run p s with
  | Some (a, s') => run (f a) s'
  | None => None
  end.
Proof.
  revert s. induction p as [a | X e k IH]; intros s; [done |].
  change (Vis e k ≫= f) with (Vis e (λ x, k x ≫= f)). simpl.
  destruct (exec e s) as [[x s'] |]; [apply IH | done].
Qed.

(** A reader takes and gives back the shared lock before looking at
    [currLvl]; on a free mutex that leaves the state as it was. *)
Lemma rlock_runlock (s : State) :
  unlocked s →
  run (perform mu_RLock;; perform mu_RUnlock) s = Some ((), s).
Proof.
  destruct s as [c [wr rd] tr]. unfold unlocked; simpl. intros [= -> ->]. done.
Qed.

(** Below the threshold a method gives up right after the comparison. *)
Lemma run_invoke_drop (w : Wrapper) (m : Method) (s : State) :
  unlocked s → lvl w < currLvl s →
  run (invoke w m) s = Some ((), s).
Proof.
  destruct s as [c [wr rd] tr]. unfold unlocked; simpl. intros [= -> ->] Hlt.
  assert ((lvl w >=? c) = false) as Hc by (rewrite Z.geb_leb; apply Z.leb_gt; lia).
  destruct m; cbn; rewrite Hc; reflexivity.
Qed.

(** At or above the threshold the non-formatted methods call [Format], then
    [GetSuffix], then the logger; the formatted ones call [GetSuffix], then
    [Format], then the logger. *)
Lemma run_invoke_pass (w : Wrapper) (m : Method) (s : State) :
  unlocked s → lvl w >= currLvl s →
  run (invoke w m) s =
  Some ((),
    extend s
      match method_format m with
      | None =>
          [EvFormat (lvl w) (method_args m);
           EvGetSuffix (lvl w);
           EvLog (logger w)
             (forwarded m ""
                (Format (formatter w) (lvl w) (method_args m)
                 ++ [VString (GetSuffix (formatter w) (lvl w))]))]
      | Some format =>
          [EvGetSuffix (lvl w);
           EvFormat (lvl w) (method_args m);
           EvLog (logger w)
             (forwarded m ("%s" +:+ format +:+ GetSuffix (formatter w) (lvl w))
                (Format (formatter w) (lvl w) (method_args m)))]
      end).
Proof.
  destruct s as [c [wr rd] tr]. unfold unlocked; simpl. intros [= -> ->] Hge.
  assert ((lvl w >=? c) = true) as Hc by (rewrite Z.geb_leb; apply Z.leb_le; lia).
  destruct m; cbn; rewrite Hc; cbn; unfold extend, emit; simpl;
    by rewrite <- !app_assoc.
Qed.

(** [New] takes no lock and reads no package variable: it asks the formatter
    for the five prefixes, in the order of the five assignments, and returns
    the aggregate. *)
Lemma run_New (out errOut : option Writer) (f : option Formatter) (s : State) :
  let o := default os_Stdout out in
  let e := default os_Stderr errOut in
  let fm := default DefaultFormatter f in
  run (New out errOut f) s =
  Some ({| Logger.DEBUG :=
             {| lvl := DEBUG; formatter := fm;
                logger := log_New o (GetPrefix fm DEBUG +:+ prefix_at DEBUG) flag |};
           Logger.INFO :=
             {| lvl := INFO; formatter := fm;
                logger := log_New o (GetPrefix fm INFO +:+ prefix_at INFO) flag |};
           Logger.WARNING :=
             {| lvl := INFO; formatter := fm;
                logger := log_New o (GetPrefix fm WARNING +:+ prefix_at WARNING) flag |};
           Logger.ERROR :=
             {| lvl := INFO; formatter := fm;
                logger := log_New e (GetPrefix fm ERROR +:+ prefix_at ERROR) flag |};
           Logger.FATAL :=
             {| lvl := INFO; formatter := fm;
                logger := log_New e (GetPrefix fm FATAL +:+ prefix_at FATAL) flag |} |},
        extend s [EvGetPrefix DEBUG; EvGetPrefix INFO; EvGetPrefix WARNING;
                  EvGetPrefix ERROR; EvGetPrefix FATAL]).
Proof.
  destruct out, errOut, f; cbn; unfold extend, emit; simpl;
    by rewrite <- !app_assoc.
Qed.

Lemma prefix_at_levels :
  prefix_at DEBUG = "DEBUG: " ∧ prefix_at INFO = "INFO: " ∧
  prefix_at WARNING = "WARNING: " ∧ prefix_at ERROR = "ERROR: " ∧
  prefix_at FATAL = "FATAL: ".
Proof. by vm_compute. Qed.

(** The filter that every method applies, in one statement. *)
Lemma invoke_filter (w : Wrapper) (m : Method) (s : State) :
  unlocked s →
  ∃ s', run (invoke w m) s = Some ((), s') ∧
        unlocked s' ∧ currLvl s' = currLvl s ∧
        (lvl w < currLvl s → s' = s) ∧
        (lvl w >= currLvl s → ∃ c, log_calls (emitted s s') = [(logger w, c)]) ∧
        (log_calls (emitted s s') ≠ [] ↔ lvl w >= currLvl s).
Proof.
  intros Hs. destruct (Z_lt_ge_dec (lvl w) (currLvl s)) as [Hlt | Hge].
  - exists s. rewrite run_invoke_drop by done. rewrite emitted_same.
    split_and!; [done | done | done | done | lia | ].
    split; [done | lia].
  - eexists. rewrite run_invoke_pass by done. rewrite emitted_extend.
    split_and!; [done | done | done | lia | | ].
    + intros _. destruct (method_format m); eexists; reflexivity.
    + split; [done |]. intros _. by destruct (method_format m).
Qed.

Lemma run_invoke_all_threshold (cs : list (Wrapper * Method)) (s : State) :
  unlocked s →
  ∃ s', run (invoke_all cs) s = Some ((), s') ∧
        unlocked s' ∧ currLvl s' = currLvl s.
Proof.
  revert s. induction cs as [| [w m] cs IH]; intros s Hs.
  - by exists s.
  - destruct (invoke_filter w m s Hs) as (s1 & Hrun & Hs1 & Hlvl & _).
    destruct (IH s1 Hs1) as (s2 & Hrun2 & Hs2 & Hlvl2).
    exists s2. change (invoke_all ((w, m) :: cs)) with (invoke w m ≫= λ _, invoke_all cs).
    rewrite run_bind, Hrun. split_and!; [done | done | congruence].
Qed.

Lemma run_SetLevel (l : level) (s : State) :
  unlocked s →
  run (SetLevel l) s =
  Some ((), {| currLvl := l; mu := mu s; trace := trace s |}).
Proof.
  destruct s as [c [wr rd] tr]. unfold unlocked; simpl. by intros [= -> ->].
Qed.

(** ** The threshold filter *)

(** The filter of one wrapper, read on the tag the wrapper carries: for
    every tag [L] and threshold [T], a call of any of the nine methods on a
    wrapper whose field [lvl] is [L], made while the threshold is [T],
    reaches the underlying logger if and only if [L >= T], and then with
    exactly one call on the wrapper's own logger.  When [L < T] the call
    returns with the package state and the trace exactly as they were: no
    formatter method was invoked, no logger primitive was called, and no
    destination stream received anything.  Which tag [New] gives to the
    wrapper it builds for a level is another matter, see below. *)
Theorem Wrapper_emits_iff_level_reaches_threshold
    (L T : level) (w : Wrapper) (m : Method) (s : State) :
  unlocked s → lvl w = L → currLvl s = T →
  ∃ s', run (invoke w m) s = Some ((), s') ∧
        (log_calls (emitted s s') ≠ [] ↔ L >= T) ∧
        (L >= T → ∃ c, log_calls (emitted s s') = [(logger w, c)]) ∧
        (L < T → s' = s ∧ emitted s s' = [] ∧
                 ∀ d, written_to d (emitted s s') = []).
Proof.
  intros Hs <- <-.
  destruct (invoke_filter w m s Hs) as (s' & Hrun & _ & _ & Hdrop & Hpass & Hiff).
  exists s'. split_and!; [done | done | done |].
  intros Hlt. rewrite (Hdrop Hlt), emitted_same. done.
Qed.

Lemma Wrapper_emits_iff_level_reaches_threshold_witness :
  ∃ s', run (invoke {| lvl := INFO; formatter := DefaultFormatter;
                       logger := log_New os_Stdout "INFO: " flag |}
               (MPrint [VString "dropped"]))
            {| currLvl := FATAL; mu := mu init; trace := [] |} = Some ((), s') ∧
        (log_calls (emitted {| currLvl := FATAL; mu := mu init; trace := [] |} s') ≠ []
         ↔ INFO >= FATAL) ∧
        (INFO >= FATAL → ∃ c,
           log_calls (emitted {| currLvl := FATAL; mu := mu init; trace := [] |} s')
           = [(log_New os_Stdout "INFO: " flag, c)]) ∧
        (INFO < FATAL →
           s' = {| currLvl := FATAL; mu := mu init; trace := [] |} ∧
           emitted {| currLvl := FATAL; mu := mu init; trace := [] |} s' = [] ∧
           ∀ d, written_to d
                  (emitted {| currLvl := FATAL; mu := mu init; trace := [] |} s') = []).
Proof.
  apply (Wrapper_emits_iff_level_reaches_threshold INFO FATAL
           {| lvl := INFO; formatter := DefaultFormatter;
              logger := log_New os_Stdout "INFO: " flag |}
           (MPrint [VString "dropped"])
           {| currLvl := FATAL; mu := mu init; trace := [] |});
    reflexivity.
Defined.

(** C1, at the input where it fails.  A logger is built with the defaults
    and the threshold is set to [WARNING].  [ERROR >= WARNING], so a call on
    the wrapper that [New] built for [ERROR] ought to emit; but that wrapper
    carries the tag [INFO], the comparison made is [INFO >= WARNING], and
    [Print] on it returns with the package state and the trace exactly as
    they were: no logger is called and no stream receives anything. *)
Theorem ERROR_wrapper_is_dropped_at_threshold_WARNING :
  ∃ L s1 s2,
    run (New None None None) init = Some (L, s1) ∧
    run (SetLevel WARNING) s1 = Some ((), s2) ∧
    currLvl s2 = WARNING ∧ ERROR >= WARNING ∧
    lvl (Logger.ERROR L) = INFO ∧
    run (Print (Logger.ERROR L) [VString "x"]) s2 = Some ((), s2) ∧
    run_proc (Print (Logger.ERROR L) [VString "x"]) s2 = Returned () s2 ∧
    log_calls (emitted s2 s2) = [] ∧
    ∀ d, written_to d (emitted s2 s2) = [].
Proof.
  eexists _, _, _. split; [reflexivity |]. split; [reflexivity |].
  split; [reflexivity |]. split; [by vm_compute |]. split; [reflexivity |].
  split; [reflexivity |]. split; [reflexivity |]. split; [reflexivity |].
  intros d. reflexivity.
Qed.

(** C2.  In the aggregate that [New] returns, the wrappers in the fields
    [WARNING], [ERROR] and [FATAL] carry the level tag [INFO]; only the
    wrappers in [DEBUG] and [INFO] carry their own level.  So a call on any
    of those three wrappers reaches its logger exactly when [INFO] is at or
    above the threshold, whatever the field it sits in. *)
Theorem New_tags_WARNING_ERROR_FATAL_as_INFO
    (out errOut : option Writer) (f : option Formatter) (s0 : State)
    (m : Method) (s : State) :
  unlocked s →
  ∃ L s0', run (New out errOut f) s0 = Some (L, s0') ∧
    lvl (Logger.DEBUG L) = DEBUG ∧ lvl (Logger.INFO L) = INFO ∧
    lvl (Logger.WARNING L) = INFO ∧ lvl (Logger.ERROR L) = INFO ∧
    lvl (Logger.FATAL L) = INFO ∧
    ∀ w, w ∈ [Logger.WARNING L; Logger.ERROR L; Logger.FATAL L] →
      ∃ s', run (invoke w m) s = Some ((), s') ∧
            (log_calls (emitted s s') ≠ [] ↔ INFO >= currLvl s).
Proof.
  intros Hs. eexists _, _. rewrite run_New. split; [reflexivity |].
  split_and!; try reflexivity.
  intros w Hw.
  destruct (invoke_filter w m s Hs) as (s' & Hrun & _ & _ & _ & _ & Hiff).
  exists s'. split; [done |].
  assert (lvl w = INFO) as <-; [| done].
  rewrite !elem_of_cons, elem_of_nil in Hw.
  destruct Hw as [-> | [-> | [-> | []]]]; reflexivity.
Qed.

Lemma New_tags_WARNING_ERROR_FATAL_as_INFO_witness :
  ∃ L s0', run (New None None None) init = Some (L, s0') ∧
    lvl (Logger.DEBUG L) = DEBUG ∧ lvl (Logger.INFO L) = INFO ∧
    lvl (Logger.WARNING L) = INFO ∧ lvl (Logger.ERROR L) = INFO ∧
    lvl (Logger.FATAL L) = INFO ∧
    ∀ w, w ∈ [Logger.WARNING L; Logger.ERROR L; Logger.FATAL L] →
      ∃ s', run (invoke w (MPrint [VString "x"]))
              {| currLvl := WARNING; mu := mu init; trace := [] |} = Some ((), s') ∧
            (log_calls (emitted {| currLvl := WARNING; mu := mu init; trace := [] |} s')
               ≠ [] ↔ INFO >= WARNING).
Proof.
  apply (New_tags_WARNING_ERROR_FATAL_as_INFO None None None init
           (MPrint [VString "x"])
           {| currLvl := WARNING; mu := mu init; trace := [] |}).
  reflexivity.
Defined.

(** ** Forwarding *)

(** Eight of the nine methods hand their payload to the primitive of their
    own name. *)
Lemma forwarded_same_name (m : Method) (format : string) (v : list Value) :
  method_name m ≠ "Panic" →
  call_name (forwarded m format v) = method_name m.
Proof. by destruct m. Qed.

(** A method that passes the filter makes exactly the call [forwarded]
    names, on the logger of its wrapper. *)
Lemma invoke_pass_call (w : Wrapper) (m : Method) (s : State) :
  unlocked s → lvl w >= currLvl s →
  ∃ s' format v,
    run (invoke w m) s = Some ((), s') ∧
    log_calls (emitted s s') = [(logger w, forwarded m format v)].
Proof.
  intros Hs Hge. pose proof (run_invoke_pass w m s Hs Hge) as Hrun.
  destruct m; eexists _, _, _; (split; [exact Hrun |]);
    rewrite emitted_extend; reflexivity.
Qed.

(** C3, at the input where it fails.  A logger is built with the defaults
    and [Panic] is called on its [INFO] wrapper at process start, so the
    threshold check passes.  The one call that reaches the underlying logger
    is [Fatal], with the decorated arguments; no call of [Panic] is made.
    ([Panicf] and [Panicln] do forward to their namesakes, see
    [forwarded_same_name].) *)
Theorem Panic_forwards_to_log_Fatal :
  ∃ L s1 s2,
    run (New None None None) init = Some (L, s1) ∧
    run (Panic (Logger.INFO L) [VString "boom"]) s1 = Some ((), s2) ∧
    log_calls (emitted s1 s2)
    = [(logger (Logger.INFO L), log_Fatal [VString "boom"; VString ""])] ∧
    call_name (log_Fatal [VString "boom"; VString ""])
    ≠ method_name (MPanic [VString "boom"]).
Proof.
  eexists _, _, _. split; [reflexivity |]. split; [reflexivity |].
  split; [reflexivity | discriminate].
Qed.

(** ** The threshold is one package variable *)

(** C4.  At process start the threshold is [INFO].  [SetLevel W] run from
    any state, whatever the threshold was when the wrappers in play were
    built, leaves the threshold at [W] and emits nothing; any number of
    method calls on any wrappers afterwards leave it at [W]; and a further
    call on any wrapper [w] reaches its logger exactly when the level tag of
    [w] is at or above [W]. *)
Theorem SetLevel_governs_every_later_call
    (W : level) (s : State) (before : list (Wrapper * Method))
    (w : Wrapper) (m : Method) :
  unlocked s →
  currLvl init = INFO ∧
  ∃ s1 s2 s3,
    run (SetLevel W) s = Some ((), s1) ∧
    currLvl s1 = W ∧ trace s1 = trace s ∧
    run (invoke_all before) s1 = Some ((), s2) ∧ currLvl s2 = W ∧
    run (invoke w m) s2 = Some ((), s3) ∧ currLvl s3 = W ∧
    (log_calls (emitted s2 s3) ≠ [] ↔ lvl w >= W) ∧
    run (SetLevel W;; invoke_all before;; invoke w m) s = Some ((), s3).
Proof.
  intros Hs. split; [reflexivity |].
  pose proof (run_SetLevel W s Hs) as H1.
  set (s1 := {| currLvl := W; mu := mu s; trace := trace s |}) in *.
  assert (unlocked s1) as Hs1 by done.
  destruct (run_invoke_all_threshold before s1 Hs1) as (s2 & H2 & Hs2 & Hl2).
  destruct (invoke_filter w m s2 Hs2) as (s3 & H3 & _ & Hl3 & _ & _ & Hiff).
  exists s1, s2, s3. simpl in Hl2.
  split_and!; try done.
  - congruence.
  - by rewrite <- Hl2.
  - rewrite run_bind, H1, run_bind, H2. done.
Qed.

Lemma SetLevel_governs_every_later_call_witness :
  currLvl init = INFO ∧
  ∃ s1 s2 s3,
    run (SetLevel ERROR) init = Some ((), s1) ∧
    currLvl s1 = ERROR ∧ trace s1 = trace init ∧
    run (invoke_all
           [({| lvl := DEBUG; formatter := DefaultFormatter;
                logger := log_New os_Stdout "DEBUG: " flag |}, MPrintln [VInt 1])])
        s1 = Some ((), s2) ∧ currLvl s2 = ERROR ∧
    run (invoke {| lvl := INFO; formatter := DefaultFormatter;
                   logger := log_New os_Stdout "INFO: " flag |}
           (MPrintf "%d" [VInt 2])) s2 = Some ((), s3) ∧ currLvl s3 = ERROR ∧
    (log_calls (emitted s2 s3) ≠ [] ↔ INFO >= ERROR) ∧
    run (SetLevel ERROR;;
         invoke_all
           [({| lvl := DEBUG; formatter := DefaultFormatter;
                logger := log_New os_Stdout "DEBUG: " flag |}, MPrintln [VInt 1])];;
         invoke {| lvl := INFO; formatter := DefaultFormatter;
                   logger := log_New os_Stdout "INFO: " flag |}
           (MPrintf "%d" [VInt 2])) init = Some ((), s3).
Proof.
  apply (SetLevel_governs_every_later_call ERROR init
           [({| lvl := DEBUG; formatter := DefaultFormatter;
                logger := log_New os_Stdout "DEBUG: " flag |}, MPrintln [VInt 1])]
           {| lvl := INFO; formatter := DefaultFormatter;
              logger := log_New os_Stdout "INFO: " flag |}
           (MPrintf "%d" [VInt 2])).
  reflexivity.
Defined.

(** ** Destinations *)

(** A method call reaches no stream but the one its wrapper's logger is
    bound to. *)
Lemma invoke_writes_only_own_stream (w : Wrapper) (m : Method) (s : State) :
  unlocked s →
  ∃ s', run (invoke w m) s = Some ((), s') ∧
        ∀ d, d ≠ log_out (logger w) → written_to d (emitted s s') = [].
Proof.
  intros Hs. destruct (Z_lt_ge_dec (lvl w) (currLvl s)) as [Hlt | Hge].
  - exists s. rewrite run_invoke_drop by done. split; [done |].
    intros d _. by rewrite emitted_same.
  - eexists. rewrite run_invoke_pass by done. split; [done |].
    intros d Hd. rewrite emitted_extend.
    destruct (method_format m); cbn; by rewrite decide_False.
Qed.

(** C5.  In the aggregate that [New out errOut f] returns, the loggers of
    the [DEBUG], [INFO] and [WARNING] wrappers are bound to the standard
    destination (the given [out], or standard output when it is nil) and
    those of the [ERROR] and [FATAL] wrappers to the error destination (the
    given [errOut], or standard error when it is nil); a method call on any
    of the five reaches no stream other than the one its wrapper is bound
    to. *)
Theorem New_routes_levels_to_streams
    (out errOut : option Writer) (f : option Formatter) (s0 : State)
    (m : Method) (s : State) :
  unlocked s →
  ∃ L s0', run (New out errOut f) s0 = Some (L, s0') ∧
    let o := default os_Stdout out in
    let e := default os_Stderr errOut in
    (∀ w, w ∈ [Logger.DEBUG L; Logger.INFO L; Logger.WARNING L] →
       log_out (logger w) = o ∧
       ∃ s', run (invoke w m) s = Some ((), s') ∧
             ∀ d, d ≠ o → written_to d (emitted s s') = []) ∧
    (∀ w, w ∈ [Logger.ERROR L; Logger.FATAL L] →
       log_out (logger w) = e ∧
       ∃ s', run (invoke w m) s = Some ((), s') ∧
             ∀ d, d ≠ e → written_to d (emitted s s') = []).
Proof.
  intros Hs. eexists _, _. rewrite run_New. split; [reflexivity |].
  cbv zeta. split; intros w Hw.
  - assert (log_out (logger w) = default os_Stdout out) as Ho.
    { rewrite !elem_of_cons, elem_of_nil in Hw.
      destruct Hw as [-> | [-> | [-> | []]]]; reflexivity. }
    split; [done |]. rewrite <- Ho. by apply invoke_writes_only_own_stream.
  - assert (log_out (logger w) = default os_Stderr errOut) as He.
    { rewrite !elem_of_cons, elem_of_nil in Hw.
      destruct Hw as [-> | [-> | []]]; reflexivity. }
    split; [done |]. rewrite <- He. by apply invoke_writes_only_own_stream.
Qed.

Lemma New_routes_levels_to_streams_witness :
  ∃ L s0', run (New (Some (UserWriter 1)) (Some (UserWriter 2)) None) init
           = Some (L, s0') ∧
    let o := default os_Stdout (Some (UserWriter 1)) in
    let e := default os_Stderr (Some (UserWriter 2)) in
    (∀ w, w ∈ [Logger.DEBUG L; Logger.INFO L; Logger.WARNING L] →
       log_out (logger w) = o ∧
       ∃ s', run (invoke w (MPrint [VString "x"])) init = Some ((), s') ∧
             ∀ d, d ≠ o → written_to d (emitted init s') = []) ∧
    (∀ w, w ∈ [Logger.ERROR L; Logger.FATAL L] →
       log_out (logger w) = e ∧
       ∃ s', run (invoke w (MPrint [VString "x"])) init = Some ((), s') ∧
             ∀ d, d ≠ e → written_to d (emitted init s') = []).
Proof.
  apply (New_routes_levels_to_streams (Some (UserWriter 1)) (Some (UserWriter 2))
           None init (MPrint [VString "x"]) init).
  reflexivity.
Defined.

(** ** Decoration *)

(** C6.  When the threshold check passes, a non-formatted method ([Print],
    [Println], [Fatal], [Fatalln], [Panic], [Panicln]) first calls
    [Format (level, args)], then [GetSuffix (level)], and forwards the
    formatted arguments followed by the suffix as one more argument; a
    formatted method ([Printf], [Fatalf], [Panicf]) forwards the format
    string ["%s" + format + suffix] with the formatted arguments. *)
Theorem decoration_of_the_forwarded_call (w : Wrapper) (m : Method) (s : State) :
  unlocked s → lvl w >= currLvl s →
  ∃ c s',
    run (invoke w m) s = Some ((), s') ∧
    log_calls (emitted s s') = [(logger w, c)] ∧
    match method_format m with
    | None =>
        emitted s s' = [EvFormat (lvl w) (method_args m);
                        EvGetSuffix (lvl w);
                        EvLog (logger w) c] ∧
        call_format c = None ∧
        call_args c = Format (formatter w) (lvl w) (method_args m)
                      ++ [VString (GetSuffix (formatter w) (lvl w))]
    | Some format =>
        call_format c = Some ("%s" +:+ format +:+ GetSuffix (formatter w) (lvl w)) ∧
        call_args c = Format (formatter w) (lvl w) (method_args m)
    end.
Proof.
  intros Hs Hge. pose proof (run_invoke_pass w m s Hs Hge) as Hrun.
  destruct m; eexists _, _; (split; [exact Hrun |]);
    rewrite emitted_extend; cbn; done.
Qed.

Lemma decoration_of_the_forwarded_call_witness :
  ∃ c s',
    run (invoke {| lvl := WARNING;
                   formatter := {| GetPrefix := λ _, "<"; GetSuffix := λ _, ">";
                                   Format := λ _ v, VString "" :: v |};
                   logger := log_New os_Stdout "<WARNING: " flag |}
           (MPrintln [VInt 7])) init = Some ((), s') ∧
    log_calls (emitted init s') = [(log_New os_Stdout "<WARNING: " flag, c)] ∧
    emitted init s' = [EvFormat WARNING [VInt 7]; EvGetSuffix WARNING;
                       EvLog (log_New os_Stdout "<WARNING: " flag) c] ∧
    call_format c = None ∧
    call_args c = [VString ""; VInt 7] ++ [VString ">"].
Proof.
  apply (decoration_of_the_forwarded_call
           {| lvl := WARNING;
              formatter := {| GetPrefix := λ _, "<"; GetSuffix := λ _, ">";
                              Format := λ _ v, VString "" :: v |};
              logger := log_New os_Stdout "<WARNING: " flag |}
           (MPrintln [VInt 7]) init); [reflexivity | by vm_compute].
Defined.

(** ** Construction *)

(** C7.  [New] returns an aggregate for every combination of arguments and
    from every package state, and it leaves [currLvl] and [mu] alone.  All
    five wrappers share one formatter: the given one, or [DefaultFormatter]
    when it is nil; the standard destination is the given one, or standard
    output when it is nil; the error destination is the given one, or
    standard error when it is nil.  Nothing else is done to the arguments:
    passing those three values explicitly gives the same aggregate. *)
Theorem New_never_fails_and_only_fills_defaults
    (out errOut : option Writer) (f : option Formatter) (s : State) :
  ∃ L s', run (New out errOut f) s = Some (L, s') ∧
    currLvl s' = currLvl s ∧ mu s' = mu s ∧
    let o := match out with Some x => x | None => os_Stdout end in
    let e := match errOut with Some x => x | None => os_Stderr end in
    let fm := match f with Some x => x | None => DefaultFormatter end in
    Forall (λ w, formatter w = fm)
      [Logger.DEBUG L; Logger.INFO L; Logger.WARNING L;
       Logger.ERROR L; Logger.FATAL L] ∧
    Forall (λ w, log_out (logger w) = o)
      [Logger.DEBUG L; Logger.INFO L; Logger.WARNING L] ∧
    Forall (λ w, log_out (logger w) = e) [Logger.ERROR L; Logger.FATAL L] ∧
    run (New (Some o) (Some e) (Some fm)) s = Some (L, s').
Proof.
  eexists _, _. rewrite run_New. split; [reflexivity |].
  split; [reflexivity |]. split; [reflexivity |]. cbv zeta.
  split_and!.
  - repeat constructor; by destruct f.
  - repeat constructor; by destruct out.
  - repeat constructor; by destruct errOut.
  - rewrite run_New. by destruct out, errOut, f.
Qed.

(** C8.  For each of the five levels, the logger of the wrapper that [New]
    puts in that level's field has as its static prefix the formatter's
    [GetPrefix] for that level followed by the level's name, a colon and a
    space. *)
Theorem New_static_line_prefix
    (out errOut : option Writer) (f : option Formatter) (s : State) :
  ∃ L s', run (New out errOut f) s = Some (L, s') ∧
    let fm := match f with Some x => x | None => DefaultFormatter end in
    log_prefix (logger (Logger.DEBUG L)) = GetPrefix fm DEBUG +:+ "DEBUG" +:+ ": " ∧
    log_prefix (logger (Logger.INFO L)) = GetPrefix fm INFO +:+ "INFO" +:+ ": " ∧
    log_prefix (logger (Logger.WARNING L))
      = GetPrefix fm WARNING +:+ "WARNING" +:+ ": " ∧
    log_prefix (logger (Logger.ERROR L)) = GetPrefix fm ERROR +:+ "ERROR" +:+ ": " ∧
    log_prefix (logger (Logger.FATAL L)) = GetPrefix fm FATAL +:+ "FATAL" +:+ ": ".
Proof.
  eexists _, _. rewrite run_New. split; [reflexivity |].
  destruct prefix_at_levels as (HD & HI & HW & HE & HF).
  cbv zeta. simpl. rewrite HD, HI, HW, HE, HF. by destruct f.
Qed.

(** ** The suffix of the formatted methods *)

Lemma get_append_right (a b : string) (i : nat) :
  String.get (String.length a + i) (a +:+ b) = String.get i b.
Proof. rewrite Nat.add_comm. symmetry. apply String.append_correct2. Qed.

(** C10.  When [Printf], [Fatalf] or [Panicf] passes the threshold check,
    the suffix that [GetSuffix] returned is not among the arguments of the
    forwarded call: the arguments are exactly what [Format] returned, and
    the suffix is the tail of the format string.  So every character of the
    suffix, a percent sign included, reaches the underlying logger inside
    its format string, where a percent sign introduces a formatting verb. *)
Theorem suffix_goes_into_the_format_string
    (w : Wrapper) (m : Method) (format : string) (s : State) :
  unlocked s → lvl w >= currLvl s → method_format m = Some format →
  ∃ c s' fs,
    run (invoke w m) s = Some ((), s') ∧
    log_calls (emitted s s') = [(logger w, c)] ∧
    call_format c = Some fs ∧
    fs = "%s" +:+ format +:+ GetSuffix (formatter w) (lvl w) ∧
    call_args c = Format (formatter w) (lvl w) (method_args m) ∧
    ∀ i, String.get i (GetSuffix (formatter w) (lvl w)) = Some "%"%char →
         String.get (2 + String.length format + i) fs = Some "%"%char.
Proof.
  intros Hs Hge Hfmt. pose proof (run_invoke_pass w m s Hs Hge) as Hrun.
  rewrite Hfmt in Hrun.
  exists (forwarded m ("%s" +:+ format +:+ GetSuffix (formatter w) (lvl w))
            (Format (formatter w) (lvl w) (method_args m))).
  eexists _, _. split; [exact Hrun |]. rewrite emitted_extend.
  split; [reflexivity |].
  split; [destruct m; try discriminate; reflexivity |].
  split; [reflexivity |].
  split; [destruct m; try discriminate; reflexivity |].
  intros i Hi.
  change (2 + String.length format + i)%nat
    with (S (S (String.length format + i))).
  change (String.get (String.length format + i)
            (format +:+ GetSuffix (formatter w) (lvl w)) = Some "%"%char).
  by rewrite get_append_right.
Qed.

Lemma suffix_goes_into_the_format_string_witness :
  ∃ c s' fs,
    run (invoke {| lvl := INFO;
                   formatter := {| GetPrefix := λ _, ""; GetSuffix := λ _, " 100%d";
                                   Format := λ _ v, VString "" :: v |};
                   logger := log_New os_Stdout "INFO: " flag |}
           (MPrintf "load: %s" [VString "high"])) init = Some ((), s') ∧
    log_calls (emitted init s') = [(log_New os_Stdout "INFO: " flag, c)] ∧
    call_format c = Some fs ∧
    fs = "%s" +:+ "load: %s" +:+ " 100%d" ∧
    call_args c = [VString ""; VString "high"] ∧
    ∀ i, String.get i " 100%d" = Some "%"%char →
         String.get (2 + String.length "load: %s" + i) fs = Some "%"%char.
Proof.
  apply (suffix_goes_into_the_format_string
           {| lvl := INFO;
              formatter := {| GetPrefix := λ _, ""; GetSuffix := λ _, " 100%d";
                              Format := λ _ v, VString "" :: v |};
              logger := log_New os_Stdout "INFO: " flag |}
           (MPrintf "load: %s" [VString "high"]) "load: %s" init);
    [reflexivity | by vm_compute | reflexivity].
Defined.

(** ** Locking discipline *)

(** The shape of [SetLevel]: the store sits between [Lock] and [Unlock]. *)
Lemma SetLevel_shape (l : level) :
  SetLevel l =
  Vis mu_Lock (λ _, Vis (store_currLvl l) (λ u, Vis mu_Unlock (λ _, Ret u))).
Proof. reflexivity. Qed.

(** The shape of every method of [Wrapper]: [RLock], [RUnlock], and only
    then the load of [currLvl]. *)
Lemma invoke_shape (w : Wrapper) (m : Method) :
  ∃ k, invoke w m =
       Vis mu_RLock (λ _, Vis mu_RUnlock (λ _, Vis load_currLvl k)).
Proof. destruct m; eexists; reflexivity. Qed.

(** [SetLevel] makes one access to [currLvl], a write, holding [mu]
    exclusively. *)
Lemma SetLevel_writes_under_exclusive_lock (l : level) (s : State) :
  unlocked s →
  accesses (SetLevel l) HeldNone s = [(Write, HeldExclusive)].
Proof.
  destruct s as [c [wr rd] tr]. unfold unlocked; simpl. by intros [= -> ->].
Qed.

(** Every method makes one access to [currLvl], a read, holding nothing:
    the shared lock was given back on the line before. *)
Lemma invoke_reads_without_lock (w : Wrapper) (m : Method) (s : State) :
  unlocked s →
  accesses (invoke w m) HeldNone s = [(Read, HeldNone)].
Proof.
  destruct s as [c [wr rd] tr]. unfold unlocked; simpl. intros [= -> ->].
  destruct m; cbn; destruct (lvl w >=? c); reflexivity.
Qed.

(** One goroutine in [SetLevel] and one in any method of any wrapper: the
    reader takes and releases the shared lock, the writer takes the
    exclusive lock, and now the write and the read of [currLvl] are both
    next, with nothing between them. *)
Lemma writer_and_reader_race (l : level) (w : Wrapper) (m : Method) (s : State) :
  unlocked s →
  ∃ c, rtc step {| goroutines := [SetLevel l; invoke w m]; shared := s |} c ∧
       data_race c ∧
       mu (shared c) = {| writer := true; readers := 0 |}.
Proof.
  destruct s as [cur [wr rd] tr]. unfold unlocked; simpl. intros [= -> ->].
  destruct (invoke_shape w m) as [k ->]. rewrite SetLevel_shape.
  eexists. split_and!.
  - eapply rtc_l.
    { eapply (step_goroutine 1 unit mu_RLock _ ()); reflexivity. }
    eapply rtc_l.
    { eapply (step_goroutine 1 unit mu_RUnlock _ ()); reflexivity. }
    eapply rtc_l.
    { eapply (step_goroutine 0 unit mu_Lock _ ()); reflexivity. }
    apply rtc_refl.
  - exists 0%nat, 1%nat. eexists _, _. simpl.
    split_and!; [done | reflexivity | reflexivity | reflexivity | by eexists].
  - reflexivity.
Qed.

(** C9, at the input where it fails.  From process start, one goroutine
    calls [SetLevel (DEBUG)] and another calls [Print] on an [INFO] wrapper.
    A configuration is reached in which the first holds [mu] exclusively and
    is about to store to [currLvl] while the second, holding nothing, is
    about to load it: a data race on the threshold. *)
Theorem threshold_read_races_with_SetLevel :
  ∃ c,
    rtc step
      {| goroutines :=
           [SetLevel DEBUG;
            Print {| lvl := INFO; formatter := DefaultFormatter;
                     logger := log_New os_Stdout "INFO: " flag |}
                  [VString "x"]];
         shared := init |} c ∧
    data_race c ∧
    mu (shared c) = {| writer := true; readers := 0 |}.
Proof.
  apply (writer_and_reader_race DEBUG
           {| lvl := INFO; formatter := DefaultFormatter;
              logger := log_New os_Stdout "INFO: " flag |}
           (MPrint [VString "x"]) init).
  reflexivity.
Qed.

(** *** The writer's side of the discipline holds in every interleaving *)

(** One goroutine under [step] does what [run] does. *)
Lemma run_steps (p : Prog unit) (s : State) (a : unit) (s' : State) :
  run p s = Some (a, s') →
  rtc step {| goroutines := [p]; shared := s |}
           {| goroutines := [Ret a]; shared := s' |}.
Proof.
  revert s. induction p as [b | X e k IH]; intros s; simpl.
  - intros [= -> ->]. apply rtc_refl.
  - destruct (exec e s) as [[x s1] |] eqn:He; [| done]. intros Hrun.
    eapply rtc_l; [| apply (IH x s1 Hrun)].
    by apply (step_goroutine 0 X e k x [Vis e k] s s1).
Qed.

Lemma count_held_insert (x : Held) (hs : list Held) (i : nat) (h h' : Held) :
  hs !! i = Some h →
  (count_held x (<[i := h']> hs) + (if decide (h = x) then 1 else 0)
   = count_held x hs + (if decide (h' = x) then 1 else 0))%nat.
Proof.
  revert i. induction hs as [| h0 hs IH]; intros [| i] Hi; simplify_eq/=.
  - lia.
  - specialize (IH i Hi). lia.
Qed.

Lemma count_held_lookup (x : Held) (hs : list Held) (i : nat) :
  hs !! i = Some x → (1 ≤ count_held x hs)%nat.
Proof.
  revert i. induction hs as [| h0 hs IH]; intros [| i] Hi; simplify_eq/=.
  - rewrite decide_True by done. lia.
  - specialize (IH i Hi). lia.
Qed.

Lemma count_held_lookup2 (x : Held) (hs : list Held) (i j : nat) :
  i ≠ j → hs !! i = Some x → hs !! j = Some x → (2 ≤ count_held x hs)%nat.
Proof.
  revert i j. induction hs as [| h0 hs IH]; intros [| i] [| j] Hij Hi Hj;
    simplify_eq/=.
  - rewrite decide_True by done. pose proof (count_held_lookup _ _ _ Hj). lia.
  - rewrite decide_True by done. pose proof (count_held_lookup _ _ _ Hi). lia.
  - assert (i ≠ j) as Hij' by congruence. specialize (IH i j Hij' Hi Hj). lia.
Qed.

Lemma SetLevel_disciplined (l : level) : disciplined HeldNone (SetLevel l).
Proof. cbn. naive_solver. Qed.

Lemma invoke_disciplined (w : Wrapper) (m : Method) :
  disciplined HeldNone (invoke w m).
Proof.
  destruct m; cbn; (split; [done |]); intros _; (split; [done |]);
    intros _; (split; [done |]); intros cur;
    destruct (lvl w >=? cur); cbn; naive_solver.
Qed.

Lemma consistent_start (gs : list (Prog unit)) (s : State) :
  unlocked s → Forall (disciplined HeldNone) gs →
  consistent (replicate (length gs) HeldNone) {| goroutines := gs; shared := s |}.
Proof.
  intros Hs Hgs. unfold consistent; simpl. rewrite Hs; simpl.
  assert (∀ x n, x ≠ HeldNone → count_held x (replicate n HeldNone) = 0%nat) as Hc.
  { intros x n Hx. induction n as [| n IH]; simpl; [done |].
    rewrite decide_False by done. done. }
  rewrite !Hc by done. split; [| done].
  induction Hgs; simpl; constructor; done.
Qed.

Lemma consistent_step (hs : list Held) (c c' : Conf) :
  consistent hs c → step c c' → ∃ hs', consistent hs' c'.
Proof.
  intros (Hdis & Hex & Hsh) Hstep.
  destruct Hstep as [i X e k x gs s s' Hi He]. simpl in *.
  destruct (Forall2_lookup_r _ _ _ _ _ Hdis Hi) as (h & Hh & Hall & Hk).
  exists (<[i := held_after e h]> hs). unfold consistent; simpl.
  split; [by apply Forall2_insert |].
  pose proof (count_held_insert HeldExclusive hs i h (held_after e h) Hh) as HE.
  pose proof (count_held_insert HeldShared hs i h (held_after e h) Hh) as HS.
  destruct s as [cur [wr rd] tr].
  destruct e; simpl in *; destruct wr, rd; simplify_eq/=;
    repeat case_decide; simplify_eq/=; lia.
Qed.

Lemma consistent_reachable (hs : list Held) (c c' : Conf) :
  consistent hs c → rtc step c c' → ∃ hs', consistent hs' c'.
Proof.
  intros Hc Hsteps. revert hs Hc.
  induction Hsteps as [c | c c1 c2 Hstep _ IH]; intros hs Hc; [by exists hs |].
  destruct (consistent_step hs c c1 Hc Hstep) as [hs1 Hc1]. by apply (IH hs1).
Qed.

(** However goroutines running [SetLevel] and methods of wrappers are
    interleaved, a goroutine that is about to store to [currLvl] holds [mu]
    exclusively, and no other goroutine is about to store. *)
Lemma stores_are_exclusive (gs : list (Prog unit)) (s : State) (c : Conf)
    (i : nat) (l : level) (k : unit → Prog unit) :
  unlocked s → Forall (disciplined HeldNone) gs →
  rtc step {| goroutines := gs; shared := s |} c →
  goroutines c !! i = Some (Vis (store_currLvl l) k) →
  writer (mu (shared c)) = true ∧
  ∀ j q, j ≠ i → goroutines c !! j = Some q → next_access q ≠ Some Write.
Proof.
  intros Hs Hgs Hsteps Hi.
  destruct (consistent_reachable _ _ _ (consistent_start gs s Hs Hgs) Hsteps)
    as (hs & Hdis & Hex & _).
  destruct (Forall2_lookup_r _ _ _ _ _ Hdis Hi) as (h & Hh & Hall & _).
  simpl in Hall. subst h.
  pose proof (count_held_lookup _ _ _ Hh) as H1.
  split; [destruct (writer (mu (shared c))); [done | lia] |].
  intros j q Hji Hj Hw.
  destruct (Forall2_lookup_r _ _ _ _ _ Hdis Hj) as (h & Hh' & Hq).
  destruct q as [a | X e k']; [done |]. destruct Hq as [Hall _].
  destruct e; simplify_eq/=.
  pose proof (count_held_lookup2 _ _ _ _ Hji Hh' Hh).
  destruct (writer (mu (shared c))); lia.
Qed.

(** ** Sequences of calls *)

Lemma extend_extend (s : State) (a b : list Event) :
  extend (extend s a) b = extend s (a ++ b).
Proof. unfold extend; simpl. by rewrite app_assoc. Qed.

Lemma extend_same (s : State) : extend s [] = s.
Proof. destruct s. unfold extend; simpl. by rewrite app_nil_r. Qed.

Lemma log_calls_app (a b : list Event) :
  log_calls (a ++ b) = log_calls a ++ log_calls b.
Proof. apply omap_app. Qed.

Lemma written_to_app (d : Writer) (a b : list Event) :
  written_to d (a ++ b) = written_to d a ++ written_to d b.
Proof. apply omap_app. Qed.

(** What one method call adds to the trace, as far as loggers see it. *)
Lemma invoke_adds (w : Wrapper) (m : Method) (s : State) :
  unlocked s →
  ∃ evs, run (invoke w m) s = Some ((), extend s evs) ∧
         log_calls evs
         = (if decide (currLvl s ≤ lvl w) then [(logger w, decorated w m)] else []) ∧
         (lvl w < currLvl s → evs = []).
Proof.
  intros Hs. destruct (decide (currLvl s ≤ lvl w)) as [Hle | Hgt].
  - eexists. rewrite run_invoke_pass by (done || lia). split; [done |].
    split; [| lia]. unfold decorated. by destruct (method_format m).
  - exists []. rewrite extend_same. rewrite run_invoke_drop by (done || lia). done.
Qed.

Lemma invoke_all_adds (cs : list (Wrapper * Method)) (s : State) :
  unlocked s →
  ∃ evs, run (invoke_all cs) s = Some ((), extend s evs) ∧
         log_calls evs
         = map (λ wm, (logger wm.1, decorated wm.1 wm.2))
               (filter (λ wm, currLvl s ≤ lvl wm.1) cs) ∧
         (Forall (λ wm, lvl wm.1 < currLvl s) cs → evs = []).
Proof.
  revert s. induction cs as [| [w m] cs IH]; intros s Hs.
  - exists []. by rewrite extend_same.
  - destruct (invoke_adds w m s Hs) as (e1 & H1 & Hc1 & Hd1).
    destruct (IH (extend s e1)) as (e2 & H2 & Hc2 & Hd2); [done |].
    exists (e1 ++ e2).
    change (invoke_all ((w, m) :: cs)) with (invoke w m ≫= λ _, invoke_all cs).
    rewrite run_bind, H1, H2, extend_extend. split; [done |]. split.
    + rewrite log_calls_app, Hc1, Hc2, filter_cons. simpl.
      by destruct (decide (currLvl s ≤ lvl w)).
    + intros Hall. apply Forall_cons in Hall as [Hw Hall]. simpl in Hw.
      by rewrite (Hd1 Hw), (Hd2 Hall).
Qed.

Lemma run_proc_bind {A B : Type} (p : Prog A) (f : A → Prog B) (s : State) :
  run_proc (p ≫= f) s =
  match run_proc p s with
  | Returned a s' => run_proc (f a) s'
  | Exited s' => Exited s'
  | Panicked s' => Panicked s'
  | Stuck => Stuck
  end.
Proof.
  revert s. induction p as [a | X e k IH]; intros s; [done |].
  change (Vis e k ≫= f) with (Vis e (λ x, k x ≫= f)). simpl.
  destruct (exec e s) as [[x s'] |]; [| done].
  destruct (effect_ending e); [apply IH | done | done].
Qed.

Lemma ending_decorated (w : Wrapper) (m : Method) :
  ending (decorated w m) = method_ending m.
Proof. unfold decorated, method_ending. by destruct m. Qed.

(** One method call, as it happens: dropped below the threshold; at or above
    it the logger is called once, and the method ends as that primitive
    ends. *)
Lemma run_proc_invoke (w : Wrapper) (m : Method) (s : State) :
  unlocked s →
  ∃ evs, log_calls evs = [(logger w, decorated w m)] ∧
         run_proc (invoke w m) s
         = (if decide (currLvl s ≤ lvl w)
            then finish (method_ending m) (extend s evs)
            else Returned () s).
Proof.
  destruct s as [c [wr rd] tr]. unfold unlocked; simpl. intros [= -> ->].
  exists (match method_format m with
          | None =>
              [EvFormat (lvl w) (method_args m); EvGetSuffix (lvl w);
               EvLog (logger w) (decorated w m)]
          | Some _ =>
              [EvGetSuffix (lvl w); EvFormat (lvl w) (method_args m);
               EvLog (logger w) (decorated w m)]
          end).
  split; [by destruct (method_format m) |].
  destruct (decide (c ≤ lvl w)) as [Hle | Hgt].
  - assert ((lvl w >=? c) = true) as Hc by (rewrite Z.geb_leb; apply Z.leb_le; lia).
    destruct m; cbn; rewrite Hc; cbn; unfold extend, emit; simpl;
      by rewrite <- !app_assoc.
  - assert ((lvl w >=? c) = false) as Hc by (rewrite Z.geb_leb; apply Z.leb_gt; lia).
    destruct m; cbn; rewrite Hc; reflexivity.
Qed.

Lemma run_proc_invoke_all (cs : list (Wrapper * Method)) (s : State) :
  unlocked s →
  ∃ evs,
    run_proc (invoke_all cs) s
    = finish (ending_of (filter (λ wm, currLvl s ≤ lvl wm.1) cs)) (extend s evs) ∧
    log_calls evs
    = map (λ wm, (logger wm.1, decorated wm.1 wm.2))
          (made (filter (λ wm, currLvl s ≤ lvl wm.1) cs)).
Proof.
  revert s. induction cs as [| [w m] cs IH]; intros s Hs.
  - exists []. by rewrite extend_same.
  - destruct (run_proc_invoke w m s Hs) as (e1 & Hc1 & H1).
    change (invoke_all ((w, m) :: cs)) with (invoke w m ≫= λ _, invoke_all cs).
    rewrite run_proc_bind, H1, filter_cons. simpl.
    destruct (decide (currLvl s ≤ lvl w)) as [Hle | Hgt].
    + destruct (IH (extend s e1)) as (e2 & H2 & Hc2); [done |].
      simpl in H2, Hc2. cbn [ending_of made snd map].
      destruct (method_ending m); simpl.
      * exists (e1 ++ e2). rewrite H2, extend_extend. split; [done |].
        by rewrite log_calls_app, Hc1, Hc2.
      * exists e1. by rewrite Hc1.
      * exists e1. by rewrite Hc1.
    + destruct (IH s Hs) as (e2 & H2 & Hc2). by exists e2.
Qed.

(** In order, and no further than the first call that does not return: of a
    sequence of method calls by one goroutine, the calls whose wrapper's
    tag is at or above the threshold reach the loggers, each once, each
    decorated, in the order made, up to and including the first that is
    handed to a primitive of the [Fatal] or [Panic] family; there the
    goroutine leaves the package and no later call is made. *)
Theorem calls_are_delivered_in_order_until_one_does_not_return
    (cs : list (Wrapper * Method)) (s : State) :
  unlocked s →
  ∃ s',
    run_proc (invoke_all cs) s
    = finish (ending_of (filter (λ wm, currLvl s ≤ lvl wm.1) cs)) s' ∧
    log_calls (emitted s s')
    = map (λ wm, (logger wm.1, decorated wm.1 wm.2))
          (made (filter (λ wm, currLvl s ≤ lvl wm.1) cs)).
Proof.
  intros Hs. destruct (run_proc_invoke_all cs s Hs) as (evs & Hrun & Hcalls).
  exists (extend s evs). by rewrite emitted_extend.
Qed.

Lemma calls_are_delivered_in_order_until_one_does_not_return_witness :
  ∃ s',
    run_proc
      (invoke_all
         [({| lvl := INFO; formatter := DefaultFormatter;
              logger := log_New os_Stdout "INFO: " flag |}, MPrint [VInt 1]);
          ({| lvl := INFO; formatter := DefaultFormatter;
              logger := log_New os_Stderr "FATAL: " flag |}, MFatal [VInt 2]);
          ({| lvl := INFO; formatter := DefaultFormatter;
              logger := log_New os_Stdout "INFO: " flag |}, MPrint [VInt 3])])
      init
    = finish
        (ending_of
           (filter (λ wm, currLvl init ≤ lvl wm.1)
              [({| lvl := INFO; formatter := DefaultFormatter;
                   logger := log_New os_Stdout "INFO: " flag |}, MPrint [VInt 1]);
               ({| lvl := INFO; formatter := DefaultFormatter;
                   logger := log_New os_Stderr "FATAL: " flag |}, MFatal [VInt 2]);
               ({| lvl := INFO; formatter := DefaultFormatter;
                   logger := log_New os_Stdout "INFO: " flag |}, MPrint [VInt 3])]))
        s' ∧
    log_calls (emitted init s')
    = map (λ wm, (logger wm.1, decorated wm.1 wm.2))
          (made
             (filter (λ wm, currLvl init ≤ lvl wm.1)
                [({| lvl := INFO; formatter := DefaultFormatter;
                     logger := log_New os_Stdout "INFO: " flag |}, MPrint [VInt 1]);
                 ({| lvl := INFO; formatter := DefaultFormatter;
                     logger := log_New os_Stderr "FATAL: " flag |}, MFatal [VInt 2]);
                 ({| lvl := INFO; formatter := DefaultFormatter;
                     logger := log_New os_Stdout "INFO: " flag |}, MPrint [VInt 3])])).
Proof.
  apply (calls_are_delivered_in_order_until_one_does_not_return
           [({| lvl := INFO; formatter := DefaultFormatter;
                logger := log_New os_Stdout "INFO: " flag |}, MPrint [VInt 1]);
            ({| lvl := INFO; formatter := DefaultFormatter;
                logger := log_New os_Stderr "FATAL: " flag |}, MFatal [VInt 2]);
            ({| lvl := INFO; formatter := DefaultFormatter;
                logger := log_New os_Stdout "INFO: " flag |}, MPrint [VInt 3])]
           init).
  reflexivity.
Defined.

(** The underlying logger's [Panic] primitive is out of reach: whatever
    methods one goroutine calls, on whatever wrappers, none of the calls
    that reach a logger is a call of [Panic]. *)
Theorem log_Panic_is_never_called (cs : list (Wrapper * Method)) (s : State) :
  unlocked s →
  ∃ s', run (invoke_all cs) s = Some ((), s') ∧
        ∀ lg c, (lg, c) ∈ log_calls (emitted s s') → call_name c ≠ "Panic".
Proof.
  intros Hs. destruct (invoke_all_adds cs s Hs) as (evs & Hrun & Hcalls & _).
  exists (extend s evs). split; [done |]. rewrite emitted_extend, Hcalls.
  intros lg c Hin. apply list_elem_of_fmap in Hin as ([w m] & [= -> ->] & _).
  simpl. unfold decorated. by destruct m.
Qed.

Lemma log_Panic_is_never_called_witness :
  ∃ s', run (invoke_all
               [({| lvl := INFO; formatter := DefaultFormatter;
                    logger := log_New os_Stderr "FATAL: " flag |},
                 MPanic [VString "boom"])]) init = Some ((), s') ∧
        ∀ lg c, (lg, c) ∈ log_calls (emitted init s') → call_name c ≠ "Panic".
Proof.
  apply (log_Panic_is_never_called
           [({| lvl := INFO; formatter := DefaultFormatter;
                logger := log_New os_Stderr "FATAL: " flag |},
             MPanic [VString "boom"])] init).
  reflexivity.
Defined.

(** Lowering the threshold loses nothing: a call that reaches its logger at
    one threshold reaches it, with the same decorated payload, at every
    lower threshold. *)
Theorem lowering_the_threshold_keeps_messages
    (w : Wrapper) (m : Method) (s1 s2 s1' : State) :
  unlocked s1 → unlocked s2 → currLvl s2 ≤ currLvl s1 →
  run (invoke w m) s1 = Some ((), s1') →
  log_calls (emitted s1 s1') ≠ [] →
  ∃ s2', run (invoke w m) s2 = Some ((), s2') ∧
         log_calls (emitted s2 s2') = log_calls (emitted s1 s1').
Proof.
  intros H1 H2 Hle Hrun Hne.
  destruct (invoke_adds w m s1 H1) as (e1 & Hr1 & Hc1 & _).
  destruct (invoke_adds w m s2 H2) as (e2 & Hr2 & Hc2 & _).
  rewrite Hr1 in Hrun. injection Hrun as <-.
  rewrite emitted_extend in Hne |- *. exists (extend s2 e2).
  split; [done |]. rewrite emitted_extend, Hc1, Hc2.
  rewrite Hc1 in Hne.
  destruct (decide (currLvl s1 ≤ lvl w)); [| done].
  rewrite decide_True by lia. done.
Qed.

Lemma lowering_the_threshold_keeps_messages_witness :
  ∃ s2', run (invoke {| lvl := INFO; formatter := DefaultFormatter;
                        logger := log_New os_Stdout "INFO: " flag |}
                (MPrint [VString "x"]))
             {| currLvl := DEBUG; mu := mu init; trace := [] |} = Some ((), s2') ∧
         log_calls (emitted {| currLvl := DEBUG; mu := mu init; trace := [] |} s2')
         = log_calls
             (emitted init
                (extend init
                   [EvFormat INFO [VString "x"]; EvGetSuffix INFO;
                    EvLog (log_New os_Stdout "INFO: " flag)
                      (log_Print [VString "x"; VString ""])])).
Proof.
  apply (lowering_the_threshold_keeps_messages
           {| lvl := INFO; formatter := DefaultFormatter;
              logger := log_New os_Stdout "INFO: " flag |}
           (MPrint [VString "x"]) init
           {| currLvl := DEBUG; mu := mu init; trace := [] |});
    [reflexivity | reflexivity | by vm_compute | reflexivity | by vm_compute].
Defined.

(** ** Sequences of package calls *)

Lemma run_proc_pkg_call (c : PkgCall) (s : State) :
  unlocked s →
  ∃ e s', run_proc (pkg_call c) s = finish e s' ∧ unlocked s' ∧
          (returning_call c → e = Returns) ∧
          (e = Returns →
           currLvl s' = match c with CallSetLevel l => l | _ => currLvl s end).
Proof.
  intros Hs. destruct c as [l | out errOut f | w m]; cbn [pkg_call returning_call].
  - exists Returns. destruct s as [c [wr rd] tr]. unfold unlocked in Hs.
    simpl in Hs. injection Hs as -> ->. eexists. split; [reflexivity |]. done.
  - exists Returns. eexists. split; [by destruct out, errOut, f |]. done.
  - destruct (run_proc_invoke w m s Hs) as (evs & _ & Hrun). rewrite Hrun.
    destruct (decide (currLvl s ≤ lvl w)).
    + by exists (method_ending m), (extend s evs).
    + by exists Returns, s.
Qed.

(** Whatever one goroutine calls of the package, in whatever order, it
    never waits for the mutex and never finds it in a state it cannot
    handle, and however the goroutine ends (by returning, or in a logger
    primitive that exits or panics) the mutex is free at that point.  When
    the method calls among them are all of the [Print] family, every call
    returns and the threshold ends at the argument of the last [SetLevel]
    made, or where it was when none was made. *)
Theorem package_calls_leave_mu_free_and_last_SetLevel_wins
    (cs : list PkgCall) (s : State) :
  unlocked s →
  ∃ e s', run_proc (pkg_calls cs) s = finish e s' ∧ unlocked s' ∧
          (Forall returning_call cs →
           e = Returns ∧ currLvl s' = last_SetLevel cs (currLvl s)).
Proof.
  revert s. induction cs as [| c cs IH]; intros s Hs.
  - by exists Returns, s.
  - destruct (run_proc_pkg_call c s Hs) as (e1 & s1 & H1 & Hs1 & Hret & Hl1).
    change (pkg_calls (c :: cs)) with (pkg_call c ≫= λ _, pkg_calls cs).
    rewrite run_proc_bind, H1.
    destruct e1; simpl.
    + destruct (IH s1 Hs1) as (e2 & s2 & H2 & Hs2 & Hall2).
      exists e2, s2. split; [done |]. split; [done |].
      intros Hall. apply Forall_cons in Hall as [_ Hall].
      destruct (Hall2 Hall) as [-> Hl2]. split; [done |].
      rewrite Hl2, Hl1 by done. by destruct c.
    + exists Exits, s1. split; [done |]. split; [done |].
      intros Hall. apply Forall_cons in Hall as [Hc _]. by specialize (Hret Hc).
    + exists Panics, s1. split; [done |]. split; [done |].
      intros Hall. apply Forall_cons in Hall as [Hc _]. by specialize (Hret Hc).
Qed.

Lemma package_calls_leave_mu_free_and_last_SetLevel_wins_witness :
  ∃ e s',
    run_proc
      (pkg_calls
         [CallSetLevel FATAL;
          CallMethod {| lvl := INFO; formatter := DefaultFormatter;
                        logger := log_New os_Stdout "INFO: " flag |}
            (MPrintln [VString "dropped"]);
          CallNew None None None;
          CallSetLevel DEBUG]) init = finish e s' ∧
    unlocked s' ∧
    (Forall returning_call
       [CallSetLevel FATAL;
        CallMethod {| lvl := INFO; formatter := DefaultFormatter;
                      logger := log_New os_Stdout "INFO: " flag |}
          (MPrintln [VString "dropped"]);
        CallNew None None None;
        CallSetLevel DEBUG] →
     e = Returns ∧
     currLvl s'
     = last_SetLevel
         [CallSetLevel FATAL;
          CallMethod {| lvl := INFO; formatter := DefaultFormatter;
                        logger := log_New os_Stdout "INFO: " flag |}
            (MPrintln [VString "dropped"]);
          CallNew None None None;
          CallSetLevel DEBUG] (currLvl init)).
Proof.
  apply (package_calls_leave_mu_free_and_last_SetLevel_wins
           [CallSetLevel FATAL;
            CallMethod {| lvl := INFO; formatter := DefaultFormatter;
                          logger := log_New os_Stdout "INFO: " flag |}
              (MPrintln [VString "dropped"]);
            CallNew None None None;
            CallSetLevel DEBUG] init).
  reflexivity.
Defined.

(** ** Loggers built by [New] *)

Lemma fields_tags (out errOut : option Writer) (f : option Formatter)
    (s : State) :
  ∃ L s', run (New out errOut f) s = Some (L, s') ∧
          s' = extend s [EvGetPrefix DEBUG; EvGetPrefix INFO; EvGetPrefix WARNING;
                         EvGetPrefix ERROR; EvGetPrefix FATAL] ∧
          lvl (Logger.DEBUG L) = DEBUG ∧
          Forall (λ w, lvl w = INFO)
            [Logger.INFO L; Logger.WARNING L; Logger.ERROR L; Logger.FATAL L] ∧
          Forall (λ w, formatter w = default DefaultFormatter f) (fields L).
Proof.
  eexists _, _. rewrite run_New. split; [reflexivity |].
  split; [reflexivity |]. split; [reflexivity |].
  split; repeat constructor.
Qed.

(** At process start, before any [SetLevel]: a call on the [DEBUG] wrapper
    of any logger built by [New] is dropped without a trace, and a call on
    each of the other four reaches the wrapper's logger, once. *)
Theorem default_threshold_drops_only_DEBUG
    (out errOut : option Writer) (f : option Formatter) (m : Method) :
  ∃ L s0, run (New out errOut f) init = Some (L, s0) ∧
    run (invoke (Logger.DEBUG L) m) s0 = Some ((), s0) ∧
    ∀ w, w ∈ [Logger.INFO L; Logger.WARNING L; Logger.ERROR L; Logger.FATAL L] →
      ∃ s', run (invoke w m) s0 = Some ((), s') ∧
            log_calls (emitted s0 s') = [(logger w, decorated w m)].
Proof.
  destruct (fields_tags out errOut f init) as (L & s0 & Hrun & -> & HD & HI & _).
  eexists L, _. split; [exact Hrun |]. split.
  - apply run_invoke_drop; [done |]. rewrite HD. done.
  - intros w Hw. rewrite Forall_forall in HI. specialize (HI w Hw).
    destruct (invoke_adds w m (extend init [EvGetPrefix DEBUG; EvGetPrefix INFO;
                EvGetPrefix WARNING; EvGetPrefix ERROR; EvGetPrefix FATAL]))
      as (evs & Hr & Hc & _); [done |].
    eexists. split; [exact Hr |]. rewrite emitted_extend, Hc, HI. done.
Qed.

(** Once the threshold is above [INFO], a logger built by [New] is silent:
    no sequence of method calls on its five wrappers, the [ERROR] and
    [FATAL] ones included, changes the trace or the package state. *)
Theorem threshold_above_INFO_silences_every_field
    (out errOut : option Writer) (f : option Formatter) (s0 s : State) :
  unlocked s → INFO < currLvl s →
  ∃ L s0', run (New out errOut f) s0 = Some (L, s0') ∧
    ∀ cs : list (Wrapper * Method),
      Forall (λ wm, wm.1 ∈ fields L) cs →
      run (invoke_all cs) s = Some ((), s).
Proof.
  intros Hs HT.
  destruct (fields_tags out errOut f s0) as (L & s0' & Hrun & _ & HD & HI & _).
  exists L, s0'. split; [done |]. intros cs Hcs.
  destruct (invoke_all_adds cs s Hs) as (evs & Hr & _ & Hnil).
  rewrite Hr, Hnil, extend_same; [done |].
  eapply Forall_impl; [exact Hcs |]. intros [w m] Hw. simpl in *.
  unfold fields in Hw. apply elem_of_cons in Hw as [-> | Hw].
  - rewrite HD. unfold DEBUG, INFO in *. lia.
  - rewrite Forall_forall in HI. rewrite (HI w Hw). done.
Qed.

Lemma threshold_above_INFO_silences_every_field_witness :
  ∃ L s0', run (New None None None) init = Some (L, s0') ∧
    ∀ cs : list (Wrapper * Method),
      Forall (λ wm, wm.1 ∈ fields L) cs →
      run (invoke_all cs) {| currLvl := WARNING; mu := mu init; trace := [] |}
      = Some ((), {| currLvl := WARNING; mu := mu init; trace := [] |}).
Proof.
  apply (threshold_above_INFO_silences_every_field None None None init
           {| currLvl := WARNING; mu := mu init; trace := [] |});
    [reflexivity | by vm_compute].
Defined.

(** The [WARNING], [ERROR] and [FATAL] wrappers of a logger built by [New]
    got their static prefix from [GetPrefix] at their own level, but when
    they emit they ask the formatter for [Format] and [GetSuffix] at level
    [INFO]: the suffix that closes their line is the [INFO] suffix. *)
Theorem upper_wrappers_format_at_INFO
    (out errOut : option Writer) (f : option Formatter) (s0 : State)
    (m : Method) (s : State) :
  unlocked s → currLvl s ≤ INFO →
  ∃ L s0', run (New out errOut f) s0 = Some (L, s0') ∧
    let fm := default DefaultFormatter f in
    [EvGetPrefix WARNING; EvGetPrefix ERROR; EvGetPrefix FATAL]
      `sublist_of` emitted s0 s0' ∧
    ∀ w, w ∈ [Logger.WARNING L; Logger.ERROR L; Logger.FATAL L] →
      ∃ s', run (invoke w m) s = Some ((), s') ∧
            EvFormat INFO (method_args m) ∈ emitted s s' ∧
            EvGetSuffix INFO ∈ emitted s s' ∧
            log_calls (emitted s s')
            = [(logger w,
                decorated {| lvl := INFO; formatter := fm; logger := logger w |} m)].
Proof.
  intros Hs HT.
  destruct (fields_tags out errOut f s0) as (L & s0' & Hrun & -> & _ & HI & HF).
  eexists L, _. split; [exact Hrun |]. cbv zeta. rewrite emitted_extend. split.
  { do 2 apply sublist_cons. done. }
  intros w Hw.
  assert (lvl w = INFO) as Hl.
  { rewrite Forall_forall in HI. apply HI, elem_of_cons. by right. }
  assert (formatter w = default DefaultFormatter f) as Hf.
  { rewrite Forall_forall in HF. apply HF. unfold fields.
    do 2 (apply elem_of_cons; right). done. }
  eexists. rewrite run_invoke_pass by (done || lia). split; [done |].
  rewrite emitted_extend, Hl. unfold decorated. simpl. rewrite <- Hf.
  destruct (method_format m); split_and!; try done;
    apply list_elem_of_In; simpl; auto.
Qed.

Lemma upper_wrappers_format_at_INFO_witness :
  ∃ L s0', run (New None None None) init = Some (L, s0') ∧
    let fm := default DefaultFormatter None in
    [EvGetPrefix WARNING; EvGetPrefix ERROR; EvGetPrefix FATAL]
      `sublist_of` emitted init s0' ∧
    ∀ w, w ∈ [Logger.WARNING L; Logger.ERROR L; Logger.FATAL L] →
      ∃ s', run (invoke w (MPrint [VString "x"])) init = Some ((), s') ∧
            EvFormat INFO (method_args (MPrint [VString "x"])) ∈ emitted init s' ∧
            EvGetSuffix INFO ∈ emitted init s' ∧
            log_calls (emitted init s')
            = [(logger w,
                decorated {| lvl := INFO; formatter := fm; logger := logger w |}
                  (MPrint [VString "x"]))].
Proof.
  apply (upper_wrappers_format_at_INFO None None None init
           (MPrint [VString "x"]) init); [reflexivity | by vm_compute].
Defined.

(** Building a logger writes nothing: [New] calls [GetPrefix] once per
    level, in the order [DEBUG], [INFO], [WARNING], [ERROR], [FATAL], calls
    neither [Format] nor [GetSuffix] nor any logger, and gives each of the
    five loggers a flag word whose set bits are exactly bit 0 ([log.Ldate])
    and bit 1 ([log.Ltime]). *)
Theorem New_only_asks_for_prefixes
    (out errOut : option Writer) (f : option Formatter) (s : State) :
  ∃ L s', run (New out errOut f) s = Some (L, s') ∧
    emitted s s' = [EvGetPrefix DEBUG; EvGetPrefix INFO; EvGetPrefix WARNING;
                    EvGetPrefix ERROR; EvGetPrefix FATAL] ∧
    (∀ d, written_to d (emitted s s') = []) ∧
    Forall (λ w, ∀ n, Z.testbit (log_flag (logger w)) n = true ↔ n = 0 ∨ n = 1)
      (fields L).
Proof.
  eexists _, _. rewrite run_New. split; [reflexivity |].
  rewrite emitted_extend. split; [reflexivity |]. split; [done |].
  assert (∀ n, Z.testbit flag n = true ↔ n = 0 ∨ n = 1) as Hflag.
  { intros n. change flag with 3.
    destruct (decide (n < 0)) as [Hn | Hn].
    - rewrite Z.testbit_neg_r by done. split; [done | lia].
    - destruct (decide (n = 0)) as [-> | H0]; [by split; [left |] |].
      destruct (decide (n = 1)) as [-> | H1]; [by split; [right |] |].
      rewrite Z.bits_above_log2; [split; [done | lia] | done |].
      change (Z.log2 3) with 1. lia. }
  unfold fields. do 5 (constructor; [exact Hflag |]). constructor.
Qed.

(** The formatted methods ask for the suffix before they format, the other
    way round from the non-formatted ones, and they hand [Format] the
    caller's arguments as they came. *)
Theorem formatted_methods_ask_for_the_suffix_first
    (w : Wrapper) (m : Method) (format : string) (s : State) :
  unlocked s → lvl w >= currLvl s → method_format m = Some format →
  ∃ s', run (invoke w m) s = Some ((), s') ∧
        emitted s s' = [EvGetSuffix (lvl w);
                        EvFormat (lvl w) (method_args m);
                        EvLog (logger w) (decorated w m)].
Proof.
  intros Hs Hge Hfmt. eexists. rewrite run_invoke_pass by done.
  split; [done |]. rewrite emitted_extend. unfold decorated. by rewrite Hfmt.
Qed.

Lemma formatted_methods_ask_for_the_suffix_first_witness :
  ∃ s', run (invoke {| lvl := INFO; formatter := DefaultFormatter;
                       logger := log_New os_Stdout "INFO: " flag |}
               (MFatalf "%d" [VInt 3])) init = Some ((), s') ∧
        emitted init s'
        = [EvGetSuffix INFO; EvFormat INFO [VInt 3];
           EvLog (log_New os_Stdout "INFO: " flag)
             (decorated {| lvl := INFO; formatter := DefaultFormatter;
                           logger := log_New os_Stdout "INFO: " flag |}
                (MFatalf "%d" [VInt 3]))].
Proof.
  apply (formatted_methods_ask_for_the_suffix_first
           {| lvl := INFO; formatter := DefaultFormatter;
              logger := log_New os_Stdout "INFO: " flag |}
           (MFatalf "%d" [VInt 3]) "%d" init);
    [reflexivity | by vm_compute | reflexivity].
Defined.

(** The package map [prefix] has the five levels as its keys and no other:
    indexing it anywhere else gives the empty string, and at each of the
    five levels a label that is not empty. *)
Theorem prefix_keys_are_the_five_levels (l : level) :
  (is_Some (prefix !! l) ↔ DEBUG ≤ l ≤ FATAL) ∧
  (prefix_at l = "" ↔ ¬ (DEBUG ≤ l ≤ FATAL)).
Proof.
  unfold DEBUG, FATAL.
  destruct (decide (0 ≤ l ≤ 4)) as [Hin | Hout].
  - assert (l = 0 ∨ l = 1 ∨ l = 2 ∨ l = 3 ∨ l = 4) as Hl by lia.
    destruct Hl as [-> | [-> | [-> | [-> | ->]]]];
      (split; [split; [done | by eexists] | split; [by vm_compute | done]]).
  - assert (prefix !! l = None) as Hnone.
    { unfold prefix.
      rewrite !lookup_insert_ne by (unfold DEBUG, INFO, WARNING, ERROR; lia).
      apply lookup_singleton_ne. unfold FATAL. lia. }
    unfold prefix_at. rewrite Hnone. simpl.
    split; [split; [by intros [? [=]] | done] | done].
Qed.

Lemma written_to_log_calls (d : Writer) (evs : list Event) :
  written_to d evs
  = omap (λ lc, if decide (log_out lc.1 = d) then Some lc.2 else None)
         (log_calls evs).
Proof.
  induction evs as [| ev evs IH]; [done |].
  destruct ev as [l | l | l v | lg c]; try exact IH.
  unfold written_to, log_calls in *. cbn [omap list_omap].
  simpl. destruct (decide (log_out lg = d)); by rewrite IH.
Qed.

(** The scenario of [coloured_formatter_test.go], for any formatter and any
    two different destinations: with the threshold left at its default,
    the two [INFO] and the two [WARNING] calls reach the standard
    destination, in the order made, the two [ERROR] and the two [FATAL]
    calls reach the error destination, in the order made, and each
    destination receives nothing else. *)
Theorem test_calls_reach_their_streams
    (out errOut : option Writer) (f : option Formatter) :
  default os_Stdout out ≠ default os_Stderr errOut →
  ∃ L s0 s1,
    run (New out errOut f) init = Some (L, s0) ∧
    run (invoke_all (test_calls L)) s0 = Some ((), s1) ∧
    written_to (default os_Stdout out) (emitted s0 s1)
    = map (λ wm, decorated wm.1 wm.2) (take 4 (test_calls L)) ∧
    written_to (default os_Stderr errOut) (emitted s0 s1)
    = map (λ wm, decorated wm.1 wm.2) (drop 4 (test_calls L)).
Proof.
  intros Hne. pose proof (run_New out errOut f init) as HNew. cbv zeta in HNew.
  set (L := Logger.Build_t _ _ _ _ _) in HNew.
  set (s0 := extend init _) in HNew.
  destruct (invoke_all_adds (test_calls L) s0) as (evs & Hrun & Hcalls & _);
    [done |].
  exists L, s0, (extend s0 evs). split; [exact HNew |].
  assert (filter (λ wm : Wrapper * Method, currLvl s0 ≤ lvl wm.1) (test_calls L)
          = test_calls L) as Hall by reflexivity.
  rewrite Hall in Hcalls.
  split; [exact Hrun |]. rewrite emitted_extend, !written_to_log_calls, Hcalls.
  set (o := default os_Stdout out) in *. set (e := default os_Stderr errOut) in *.
  assert (e ≠ o) as Hne' by done.
  split; cbn [test_calls map omap list_omap fst snd take drop logger Logger.INFO
                Logger.WARNING Logger.ERROR Logger.FATAL L log_out log_New];
    (destruct (decide (o = o)); [| done]);
    (destruct (decide (e = e)); [| done]);
    (destruct (decide (o = e)); [done |]);
    (destruct (decide (e = o)); [done |]); reflexivity.
Qed.

Lemma test_calls_reach_their_streams_witness :
  ∃ L s0 s1,
    run (New (Some (UserWriter 1)) (Some (UserWriter 2)) None) init
    = Some (L, s0) ∧
    run (invoke_all (test_calls L)) s0 = Some ((), s1) ∧
    written_to (default os_Stdout (Some (UserWriter 1))) (emitted s0 s1)
    = map (λ wm, decorated wm.1 wm.2) (take 4 (test_calls L)) ∧
    written_to (default os_Stderr (Some (UserWriter 2))) (emitted s0 s1)
    = map (λ wm, decorated wm.1 wm.2) (drop 4 (test_calls L)).
Proof.
  apply (test_calls_reach_their_streams (Some (UserWriter 1))
           (Some (UserWriter 2)) None).
  by vm_compute.
Defined.

(** ** Goroutines that call the package *)

Lemma disciplined_bind (p : Prog unit) (f : unit → Prog unit) (h : Held) :
  disciplined h p → balanced h p → (∀ a, disciplined HeldNone (f a)) →
  disciplined h (p ≫= f).
Proof.
  intros Hd Hb Hf. revert h Hd Hb.
  induction p as [a | X e k IH]; intros h Hd Hb.
  - simpl in Hb. subst h. apply Hf.
  - destruct Hd as [Hall Hk]. split; [done |]. intros x.
    apply IH; [apply Hk | apply Hb].
Qed.

Lemma balanced_bind (p : Prog unit) (f : unit → Prog unit) (h : Held) :
  balanced h p → (∀ a, balanced HeldNone (f a)) → balanced h (p ≫= f).
Proof.
  intros Hb Hf. revert h Hb.
  induction p as [a | X e k IH]; intros h Hb.
  - simpl in Hb. subst h. apply Hf.
  - intros x. apply IH, Hb.
Qed.

Lemma pkg_call_disciplined (c : PkgCall) :
  disciplined HeldNone (pkg_call c) ∧ balanced HeldNone (pkg_call c).
Proof.
  destruct c as [l | out errOut f | w m].
  - split; cbn; naive_solver.
  - split; cbn; naive_solver.
  - split; [apply invoke_disciplined |].
    destruct m; cbn; intros _ _ cur; destruct (lvl w >=? cur); cbn; done.
Qed.

Lemma pkg_calls_disciplined (cs : list PkgCall) :
  disciplined HeldNone (pkg_calls cs) ∧ balanced HeldNone (pkg_calls cs).
Proof.
  induction cs as [| c cs [IHd IHb]]; [done |].
  destruct (pkg_call_disciplined c) as [Hd Hb].
  change (pkg_calls (c :: cs)) with (pkg_call c ≫= λ _, pkg_calls cs).
  split; [by apply disciplined_bind | by apply balanced_bind].
Qed.

(** The invariant of a pool: the mutex agrees with what the goroutines
    hold, and each goroutine will give back what it holds. *)
Lemma pool_start (gs : list (Prog unit)) (s : State) :
  unlocked s → Forall (λ p, ∃ cs, p = pkg_calls cs) gs →
  Forall (disciplined HeldNone) gs ∧
  Forall2 balanced (replicate (length gs) HeldNone) gs.
Proof.
  intros _ Hgs. induction Hgs as [| p gs [cs ->] _ [IH1 IH2]]; [done |].
  destruct (pkg_calls_disciplined cs) as [Hd Hb].
  split; simpl; by constructor.
Qed.

Lemma pool_step (hs : list Held) (c c' : Conf) :
  consistent hs c → Forall2 balanced hs (goroutines c) → step c c' →
  ∃ hs', consistent hs' c' ∧ Forall2 balanced hs' (goroutines c').
Proof.
  intros (Hdis & Hex & Hsh) Hbal Hstep.
  destruct Hstep as [i X e k x gs s s' Hi He]. simpl in *.
  destruct (Forall2_lookup_r _ _ _ _ _ Hdis Hi) as (h & Hh & Hall & Hk).
  destruct (Forall2_lookup_r _ _ _ _ _ Hbal Hi) as (h' & Hh' & Hbk).
  assert (h' = h) as -> by congruence.
  exists (<[i := held_after e h]> hs). unfold consistent; simpl.
  split; [| apply Forall2_insert; [done | apply Hbk]].
  split; [by apply Forall2_insert |].
  pose proof (count_held_insert HeldExclusive hs i h (held_after e h) Hh) as HE.
  pose proof (count_held_insert HeldShared hs i h (held_after e h) Hh) as HS.
  destruct s as [cur [wr rd] tr].
  destruct e; simpl in *; destruct wr, rd; simplify_eq/=;
    repeat case_decide; simplify_eq/=; lia.
Qed.

Lemma pool_reachable (hs : list Held) (c c' : Conf) :
  consistent hs c → Forall2 balanced hs (goroutines c) → rtc step c c' →
  ∃ hs', consistent hs' c' ∧ Forall2 balanced hs' (goroutines c').
Proof.
  intros Hc Hb Hsteps. revert hs Hc Hb.
  induction Hsteps as [c | c c1 c2 Hstep _ IH]; intros hs Hc Hb; [by exists hs |].
  destruct (pool_step hs c c1 Hc Hb Hstep) as (hs1 & Hc1 & Hb1).
  by apply (IH hs1).
Qed.

Lemma count_held_pos (x : Held) (hs : list Held) :
  (0 < count_held x hs)%nat → ∃ i, hs !! i = Some x.
Proof.
  induction hs as [| h hs IH]; simpl; [lia |].
  destruct (decide (h = x)) as [-> | Hne]; [by exists 0%nat |].
  intros Hpos. destruct IH as [i Hi]; [lia |]. by exists (S i).
Qed.

Lemma finished_or_running (gs : list (Prog unit)) :
  Forall (λ p, ∃ a, p = Ret a) gs ∨
  ∃ i X (e : Eff X) k, gs !! i = Some (Vis e k).
Proof.
  induction gs as [| p gs [IH | (i & X & e & k & Hi)]].
  - by left.
  - destruct p as [a | X e k].
    + left. constructor; [by exists a | done].
    + right. by exists 0%nat, X, e, k.
  - right. by exists (S i), X, e, k.
Qed.

Lemma exec_enabled {X : Type} (e : Eff X) (s : State) :
  enabled e s → ∃ x s', exec e s = Some (x, s').
Proof.
  destruct s as [cur [wr rd] tr].
  destruct e; simpl; intros He; try by eexists _, _.
  - destruct He as [-> ->]. by eexists _, _.
  - rewrite He. by eexists _, _.
  - rewrite He. by eexists _, _.
  - destruct rd; [done |]. by eexists _, _.
Qed.

(** Goroutines that only call the package never store to [currLvl]
    concurrently: in every configuration they can reach, a goroutine that
    is about to store holds [mu] exclusively, and no other goroutine is
    about to store. *)
Theorem stores_to_currLvl_never_overlap
    (gs : list (Prog unit)) (s : State) (c : Conf)
    (i : nat) (l : level) (k : unit → Prog unit) :
  unlocked s → Forall (λ p, ∃ cs, p = pkg_calls cs) gs →
  rtc step {| goroutines := gs; shared := s |} c →
  goroutines c !! i = Some (Vis (store_currLvl l) k) →
  writer (mu (shared c)) = true ∧
  ∀ j q, j ≠ i → goroutines c !! j = Some q → next_access q ≠ Some Write.
Proof.
  intros Hs Hgs Hsteps Hi.
  destruct (pool_start gs s Hs Hgs) as [Hd _].
  by apply (stores_are_exclusive gs s c i l k).
Qed.

Lemma stores_to_currLvl_never_overlap_witness :
  writer (mu (shared
    {| goroutines :=
         [Vis (store_currLvl DEBUG) (λ _, Vis mu_Unlock (λ _, Ret ()));
          pkg_calls [CallSetLevel FATAL]];
       shared := {| currLvl := INFO; mu := {| writer := true; readers := 0 |};
                    trace := [] |} |})) = true ∧
  ∀ j q, j ≠ 0%nat →
    goroutines
      {| goroutines :=
           [Vis (store_currLvl DEBUG) (λ _, Vis mu_Unlock (λ _, Ret ()));
            pkg_calls [CallSetLevel FATAL]];
         shared := {| currLvl := INFO; mu := {| writer := true; readers := 0 |};
                      trace := [] |} |} !! j = Some q →
    next_access q ≠ Some Write.
Proof.
  apply (stores_to_currLvl_never_overlap
           [pkg_calls [CallSetLevel DEBUG]; pkg_calls [CallSetLevel FATAL]]
           init _ 0%nat DEBUG (λ _, Vis mu_Unlock (λ _, Ret ()))).
  - reflexivity.
  - repeat constructor; by eexists.
  - eapply rtc_l; [| apply rtc_refl].
    apply (step_goroutine 0 unit mu_Lock
             (λ _, Vis (store_currLvl DEBUG) (λ _, Vis mu_Unlock (λ _, Ret ())))
             ()
             [pkg_calls [CallSetLevel DEBUG]; pkg_calls [CallSetLevel FATAL]]
             init); reflexivity.
  - reflexivity.
Defined.

(** Goroutines that only call the package never deadlock on [mu]: in every
    configuration they can reach, either all of them have returned or one
    of them can take its next step. *)
Theorem package_calls_never_deadlock
    (gs : list (Prog unit)) (s : State) (c : Conf) :
  unlocked s → Forall (λ p, ∃ cs, p = pkg_calls cs) gs →
  rtc step {| goroutines := gs; shared := s |} c →
  finished c ∨ ∃ c', step c c'.
Proof.
  intros Hs Hgs Hsteps.
  destruct (pool_start gs s Hs Hgs) as [Hd Hb].
  destruct (pool_reachable _ _ _ (consistent_start gs s Hs Hd) Hb Hsteps)
    as (hs & (Hdis & Hex & Hsh) & Hbal).
  destruct c as [gs' s']. simpl in *.
  assert (∀ i X (e : Eff X) k, gs' !! i = Some (Vis e k) → enabled e s' →
          ∃ c', step {| goroutines := gs'; shared := s' |} c') as Hgo.
  { intros i X e k Hi Hen. destruct (exec_enabled e s' Hen) as (x & s'' & He).
    eexists. by apply (step_goroutine i X e k x gs' s' s''). }
  assert (∀ h, (0 < count_held h hs)%nat → h ≠ HeldNone →
          ∃ i X (e : Eff X) k, gs' !! i = Some (Vis e k) ∧ allowed e h) as Hholder.
  { intros h Hpos Hh. destruct (count_held_pos h hs Hpos) as [i Hi].
    destruct (Forall2_lookup_l _ _ _ _ _ Hdis Hi) as (p & Hp & Hdp).
    destruct (Forall2_lookup_l _ _ _ _ _ Hbal Hi) as (p' & Hp' & Hbp).
    assert (p' = p) as -> by congruence.
    destruct p as [a | X e k]; [done |]. destruct Hdp as [Hall _].
    by exists i, X, e, k. }
  destruct (writer (mu s')) eqn:Hw.
  - right. destruct (Hholder HeldExclusive) as (i & X & e & k & Hi & Hall);
      [lia | done |].
    apply (Hgo i X e k Hi). destruct e; simpl in *; done.
  - destruct (readers (mu s')) as [| n] eqn:Hr.
    + destruct (finished_or_running gs') as [Hfin | (i & X & e & k & Hi)];
        [by left | right].
      apply (Hgo i X e k Hi).
      destruct (Forall2_lookup_r _ _ _ _ _ Hdis Hi) as (h & Hh & Hall & _).
      destruct e; simpl in *; try done; subst h;
        pose proof (count_held_lookup _ _ _ Hh); lia.
    + right. destruct (Hholder HeldShared) as (i & X & e & k & Hi & Hall);
        [lia | done |].
      apply (Hgo i X e k Hi). destruct e; simpl in *; try done. lia.
Qed.

Lemma package_calls_never_deadlock_witness :
  finished
    {| goroutines :=
         [Vis (store_currLvl DEBUG) (λ _, Vis mu_Unlock (λ _, Ret ()));
          pkg_calls [CallSetLevel FATAL]];
       shared := {| currLvl := INFO; mu := {| writer := true; readers := 0 |};
                    trace := [] |} |} ∨
  ∃ c', step
          {| goroutines :=
               [Vis (store_currLvl DEBUG) (λ _, Vis mu_Unlock (λ _, Ret ()));
                pkg_calls [CallSetLevel FATAL]];
             shared := {| currLvl := INFO;
                          mu := {| writer := true; readers := 0 |};
                          trace := [] |} |} c'.
Proof.
  apply (package_calls_never_deadlock
           [pkg_calls [CallSetLevel DEBUG]; pkg_calls [CallSetLevel FATAL]]
           init).
  - reflexivity.
  - repeat constructor; by eexists.
  - eapply rtc_l; [| apply rtc_refl].
    apply (step_goroutine 0 unit mu_Lock
             (λ _, Vis (store_currLvl DEBUG) (λ _, Vis mu_Unlock (λ _, Ret ())))
             ()
             [pkg_calls [CallSetLevel DEBUG]; pkg_calls [CallSetLevel FATAL]]
             init); reflexivity.
Defined.

(** ** The two sequential readings *)

Lemma exec_trace_grows {X : Type} (e : Eff X) (s : State) (x : X) (s' : State) :
  exec e s = Some (x, s') → trace s `prefix_of` trace s'.
Proof.
  destruct s as [c [wr rd] tr].
  destruct e; simpl; intros He; try (injection He as <- <-);
    try (by apply prefix_app_r); try done.
  - destruct wr; [done |]. destruct rd; simplify_eq/=. done.
  - destruct wr; simplify_eq/=. done.
  - destruct wr; simplify_eq/=. done.
  - destruct rd; simplify_eq/=. done.
Qed.

Lemma run_trace_grows {A : Type} (p : Prog A) (s : State) (a : A) (s' : State) :
  run p s = Some (a, s') → trace s `prefix_of` trace s'.
Proof.
  revert s. induction p as [b | X e k IH]; intros s; simpl.
  - by intros [= -> ->].
  - destruct (exec e s) as [[x s1] |] eqn:He; [| done]. intros Hrun.
    etrans; [exact (exec_trace_grows e s x s1 He) | exact (IH x s1 Hrun)].
Qed.

(** What happens is an initial part of what [run] records: when [run] gets
    through a program, [run_proc] is not stuck on it, and the trace at the
    point where [run_proc] ends is an initial segment of the trace [run]
    ends with.  When no logger primitive of the [Fatal] or [Panic] family
    is reached, the two agree. *)
Lemma run_proc_within_run {A : Type} (p : Prog A) (s : State) (a : A) (s' : State) :
  run p s = Some (a, s') →
  match run_proc p s with
  | Returned b t => b = a ∧ t = s'
  | Exited t | Panicked t => trace t `prefix_of` trace s'
  | Stuck => False
  end.
Proof.
  revert s. induction p as [b | X e k IH]; intros s; simpl.
  - by intros [= -> ->].
  - destruct (exec e s) as [[x s1] |] eqn:He; [| done]. intros Hrun.
    destruct (effect_ending e).
    + by apply IH.
    + exact (run_trace_grows (k x) s1 a s' Hrun).
    + exact (run_trace_grows (k x) s1 a s' Hrun).
Qed.
